(** * The wMAL data handler ([modules/data.py], class [Data])

    A shallow embedding of the data layer: the in-memory show list, the
    pending-operation queue, the lock file and the queue drain.  Python
    dictionaries are mutable objects that the show list and the queue may
    both refer to, so the model keeps an object store and lets both hold
    references into it. *)

From Stdlib Require Import ZArith.
From stdpp Require Import gmap strings list fin_maps.

Open Scope string_scope.
Open Scope list_scope.

(** ** Python values and objects *)

(** Field values of a show.  The handler never looks inside them, except
    that it compares ids and action tags with [==]. *)
Inductive value :=
| VNone
| VInt (n : Z)
| VStr (s : string).

#[global] Instance value_eq_dec : EqDecision value.
Proof. solve_decision. Defined.

#[global] Instance value_countable : Countable value.
Proof.
  refine (inj_countable'
    (λ v, match v with
          | VNone => inl ()
          | VInt n => inr (inl n)
          | VStr s => inr (inr s)
          end)
    (λ x, match x with
          | inl _ => VNone
          | inr (inl n) => VInt n
          | inr (inr s) => VStr s
          end) _).
  by intros [].
Defined.

(** A show (and a queue item) is a [dict] from field names to values. *)
Abbreviation dict := (gmap string value).

(** A reference to a dict object: its index in the object store. *)
Abbreviation loc := nat.

(** The exceptions the module can let escape. [DataError], [DataFatal] and
    [APIFatal] are the classes of [utils]; they carry the message. *)
Inductive exn :=
| DataError (msg : string)
| DataFatal (msg : string)
| APIFatal (msg : string)
| APIError (msg : string)
| KeyError (key : string)
| AttributeError
| IndexError
| IOError
| OSError
| UnpicklingError.

#[global] Instance exn_eq_dec : EqDecision exn.
Proof. solve_decision. Defined.

Inductive result (A : Type) :=
| Ok (a : A)
| Raise (e : exn).
Arguments Ok {A} a.
Arguments Raise {A} e.

(** The messages of the recoverable errors, under the names the
    specification gives them. *)
Definition DuplicateShow : exn := DataError "Show already in the list.".
Definition DuplicateQueueItem : exn := DataError "Show already in the queue.".
Definition InvalidKey : exn := DataError "Invalid key for queue update.".
Definition EmptyQueue : exn := DataError "Queue is already empty.".
Definition LockHeld : exn :=
  DataFatal ("Database is locked by another process. "
     ++ "If you're sure there's no other process is using it, "
     ++ "remove the file ~/.wmal/lock")%string.

(** ** Local files *)

(** What a local file holds: the empty lock marker, a pickled show list
    (the class default [showlist = None] can be pickled too), a pickled
    queue, or bytes that do not unpickle.  A pickle is a snapshot of the
    contents: it keeps no reference into the object store. *)
Inductive file :=
| Marker
| PickledList (s : option (gmap value dict))
| PickledQueue (q : list dict)
| Garbage.

#[global] Instance file_eq_dec : EqDecision file.
Proof. solve_decision. Defined.

(** ** The remote service *)

Inductive api_result (A : Type) :=
| ApiOk (a : A)
| ApiFail (msg : string).
Arguments ApiOk {A} a.
Arguments ApiFail {A} msg.

(** The interface of the [lib*] API classes, over the internal state [R]
    of the API object.  A call either succeeds or raises [utils.APIError];
    it reads the show it is given and does not modify it. *)
Class Remote (R : Type) := {
  fetch_list : R → R * api_result (gmap value dict);
  add_show : R → dict → R * api_result unit;
  update_show : R → dict → R * api_result unit;
  delete_show : R → dict → R * api_result unit;
  api_info : R → string;
  media_info : R → string;
}.

(** The calls a handler made to its API object, oldest first.  This log is
    not a field of the Python class: it records the calls so that
    statements about them can be written. *)
Inductive call :=
| FetchList
| AddShow (l : loc)
| UpdateShow (l : loc)
| DeleteShow (l : loc).

#[global] Instance call_eq_dec : EqDecision call.
Proof. solve_decision. Defined.

(** ** State *)

(** What all handlers of one process share: the object store, the class
    attribute [Data.queue] (one list object, created when the class is),
    and the files. *)
Record Proc := mkProc {
  heap : list dict;
  class_queue : list loc;
  fs : gmap string file;
}.

(** The attributes of one [Data] instance.  [queue = None] means that the
    instance has no attribute [queue] of its own, so that [self.queue]
    is the class attribute; [showlist = None] is the class default. *)
Record Data (R : Type) := mkData {
  showlist : option (gmap value loc);
  queue : option (list loc);
  queue_file : string;
  cache_file : string;
  lock_file : string;
  api : R;
  calls : list call;
}.
Arguments mkData {R}.
Arguments showlist {R}.
Arguments queue {R}.
Arguments queue_file {R}.
Arguments cache_file {R}.
Arguments lock_file {R}.
Arguments api {R}.
Arguments calls {R}.

Definition set_heap (h : list dict) (p : Proc) : Proc :=
  mkProc h (class_queue p) (fs p).
Definition set_class_queue (q : list loc) (p : Proc) : Proc :=
  mkProc (heap p) q (fs p).
Definition set_fs (f : gmap string file) (p : Proc) : Proc :=
  mkProc (heap p) (class_queue p) f.

Definition set_showlist {R} (s : option (gmap value loc)) (d : Data R) : Data R :=
  mkData s (queue d) (queue_file d) (cache_file d) (lock_file d) (api d) (calls d).
Definition set_queue {R} (q : option (list loc)) (d : Data R) : Data R :=
  mkData (showlist d) q (queue_file d) (cache_file d) (lock_file d) (api d) (calls d).
Definition set_api {R} (r : R) (c : call) (d : Data R) : Data R :=
  mkData (showlist d) (queue d) (queue_file d) (cache_file d) (lock_file d) r
    (calls d ++ [c]).

(** The dict at a reference.  Every reference the handler holds is to an
    allocated object; the default only makes the function total. *)
Definition deref (h : list dict) (l : loc) : dict := default ∅ (h !! l).

(** The list [self.queue] evaluates to. *)
Definition queue_of {R} (p : Proc) (d : Data R) : list loc :=
  default (class_queue p) (queue d).

(** The contents of the queue and of the show list, as a pickle stores
    them and as a caller of [get] reads them. *)
Definition queue_view {R} (p : Proc) (d : Data R) : list dict :=
  deref (heap p) <$> queue_of p d.
Definition showlist_view {R} (p : Proc) (d : Data R) : option (gmap value dict) :=
  (λ m : gmap value loc, deref (heap p) <$> m) <$> showlist d.

(** ** A state and exception monad *)

Section handler.
Context {R : Type} `{!Remote R}.

Definition St : Type := Proc * Data R.

(** An exception leaves the state as it was when it was raised. *)
Definition M (A : Type) : Type := St → St * result A.

Definition ret {A} (a : A) : M A := λ s, (s, Ok a).
Definition raise {A} (e : exn) : M A := λ s, (s, Raise e).
Definition bind {A B} (m : M A) (f : A → M B) : M B :=
  λ s, match m s with
       | (s', Ok a) => f a s'
       | (s', Raise e) => (s', Raise e)
       end.

(** [try: m except utils.APIError, e: handler e.message] *)
Definition except_APIError {A} (m : M A) (handler : string → M A) : M A :=
  λ s, match m s with
       | (s', Raise (APIError msg)) => handler msg s'
       | r => r
       end.

Definition gets {A} (f : Proc → Data R → A) : M A := λ s, (s, Ok (f s.1 s.2)).
Definition modify_proc (f : Proc → Proc) : M unit := λ s, ((f s.1, s.2), Ok tt).
Definition modify_self (f : Data R → Data R) : M unit := λ s, ((s.1, f s.2), Ok tt).

#[global] Instance M_ret : MRet M := @ret.
#[global] Instance M_bind : MBind M := λ A B f m, bind m f.

(** ** Objects, attributes and files *)

Definition getitem (d : dict) (key : string) : M value :=
  match d !! key with
  | Some v => ret v
  | None => raise (KeyError key)
  end.

Definition load (l : loc) : M dict := gets (λ p _, deref (heap p) l).

Definition store (l : loc) (d : dict) : M unit :=
  modify_proc (λ p, set_heap (<[l:=d]> (heap p)) p).

(** A new dict object. *)
Definition alloc (d : dict) : M loc :=
  λ s, ((set_heap (heap s.1 ++ [d]) s.1, s.2), Ok (length (heap s.1))).

(** New objects for the dicts of an unpickled or fetched structure. *)
Definition alloc_all (ds : list dict) : M (list loc) :=
  λ s, ((set_heap (heap s.1 ++ ds) s.1, s.2),
        Ok (seq (length (heap s.1)) (length ds))).

Definition alloc_map (m : gmap value dict) : M (gmap value loc) :=
  let kvs := map_to_list m in
  locs ← alloc_all kvs.*2;
  ret (list_to_map (zip kvs.*1 locs)).

(** [self.queue] *)
Definition self_queue : M (list loc) := gets queue_of.

(** A change of the contents of the list object that [self.queue] is:
    the instance's own list, or the list of the class. *)
Definition queue_set_contents (q : list loc) : M unit :=
  λ s, match queue s.2 with
       | Some _ => ((s.1, set_queue (Some q) s.2), Ok tt)
       | None => ((set_class_queue q s.1, s.2), Ok tt)
       end.

(** [self.queue.append(l)] *)
Definition queue_append (l : loc) : M unit :=
  q ← self_queue;
  queue_set_contents (q ++ [l]).

(** [self.queue.pop(0)] *)
Definition queue_pop0 : M loc :=
  q ← self_queue;
  match q with
  | [] => raise IndexError
  | l :: q' => queue_set_contents q';; ret l
  end.

(** [os.path.isfile(path)] *)
Definition isfile (path : string) : M bool :=
  gets (λ p _, bool_decide (is_Some (fs p !! path))).

Definition write_file (path : string) (f : file) : M unit :=
  modify_proc (λ p, set_fs (<[path:=f]> (fs p)) p).

Definition read_file (path : string) : M file :=
  λ s, match fs s.1 !! path with
       | Some f => (s, Ok f)
       | None => (s, Raise IOError)
       end.

(** [os.unlink(path)] *)
Definition unlink (path : string) : M unit :=
  present ← isfile path;
  if present : bool
  then modify_proc (λ p, set_fs (delete path (fs p)) p)
  else raise OSError.

(** ** The private methods of [Data] *)

Definition _cache_exists : M bool :=
  path ← gets (λ _ d, cache_file d);
  isfile path.

Definition _queue_exists : M bool :=
  path ← gets (λ _ d, queue_file d);
  isfile path.

Definition _load_cache : M unit :=
  path ← gets (λ _ d, cache_file d);
  f ← read_file path;
  match f with
  | PickledList None => modify_self (set_showlist None)
  | PickledList (Some m) =>
      sl ← alloc_map m;
      modify_self (set_showlist (Some sl))
  | _ => raise UnpicklingError
  end.

Definition _save_cache : M unit :=
  path ← gets (λ _ d, cache_file d);
  snapshot ← gets showlist_view;
  write_file path (PickledList snapshot).

Definition _load_queue : M unit :=
  path ← gets (λ _ d, queue_file d);
  f ← read_file path;
  match f with
  | PickledQueue items =>
      q ← alloc_all items;
      modify_self (set_queue (Some q))
  | _ => raise UnpicklingError
  end.

Definition _save_queue : M unit :=
  path ← gets (λ _ d, queue_file d);
  snapshot ← gets queue_view;
  write_file path (PickledQueue snapshot).

Definition download_data : M unit :=
  r ← gets (λ _ d, api d);
  modify_self (set_api (fetch_list r).1 FetchList);;
  match (fetch_list r).2 with
  | ApiOk m =>
      sl ← alloc_map m;
      modify_self (set_showlist (Some sl))
  | ApiFail msg => raise (APIError msg)
  end.

Definition _lock : M unit :=
  path ← gets (λ _ d, lock_file d);
  held ← isfile path;
  if held : bool
  then raise LockHeld
  else write_file path Marker.

Definition _unlock : M unit :=
  path ← gets (λ _ d, lock_file d);
  unlink path.

(** ** The public methods of [Data] *)

Definition start : M (string * string) :=
  _lock;;
  cached ← _cache_exists;
  (if cached : bool
   then _load_cache
   else
     except_APIError download_data (λ msg, raise (APIFatal msg));;
     _save_cache);;
  queued ← _queue_exists;
  (if queued : bool then _load_queue else ret ());;
  r ← gets (λ _ d, api d);
  ret (api_info r, media_info r).

Definition get : M (option (gmap value loc)) := gets (λ _ d, showlist d).

(** Truth value of a dict: an empty one is false. *)
Definition truthy (d : dict) : bool := bool_decide (d ≠ ∅).

(** The loop of [queue_add] over the queue. *)
Fixpoint check_add_queued (showid : value) (q : list loc) : M unit :=
  match q with
  | [] => ret ()
  | x :: rest =>
      dq ← load x;
      qid ← getitem dq "id";
      if decide (qid = showid)
      then
        action ← getitem dq "action";
        if decide (action = VStr "add")
        then raise DuplicateQueueItem
        else check_add_queued showid rest
      else check_add_queued showid rest
  end.

Definition queue_add (show : loc) : M unit :=
  d ← load show;
  showid ← getitem d "id";
  sl ← gets (λ _ d, showlist d);
  match sl with
  | None => raise AttributeError
  | Some m =>
      h ← gets (λ p _, heap p);
      if (match m !! showid with
          | Some l => truthy (deref h l)
          | None => false
          end)
      then raise DuplicateShow
      else
        modify_self (set_showlist (Some (<[showid:=show]> m)));;
        q ← self_queue;
        check_add_queued showid q;;
        item ← load show;
        store show (<["action":=VStr "add"]> item);;
        queue_append show;;
        _save_queue;;
        _save_cache;;
        d' ← load show;
        _ ← getitem d' "title";
        ret ()
  end.

(** The loop of [queue_update] over the queue: [true] when an update item
    of the show's id was found (and changed). *)
Fixpoint merge_into_queued (show : loc) (key : string) (v : value)
    (q : list loc) : M bool :=
  match q with
  | [] => ret false
  | x :: rest =>
      dq ← load x;
      qid ← getitem dq "id";
      ds ← load show;
      sid ← getitem ds "id";
      if decide (qid = sid)
      then
        action ← getitem dq "action";
        if decide (action = VStr "update")
        then store x (<[key:=v]> dq);; ret true
        else merge_into_queued show key v rest
      else merge_into_queued show key v rest
  end.

Definition queue_update (show : loc) (key : string) (v : value) : M unit :=
  d ← load show;
  match d !! key with
  | None => raise InvalidKey
  | Some _ =>
      store show (<[key:=v]> d);;
      q ← self_queue;
      found ← merge_into_queued show key v q;
      (if found : bool
       then ret ()
       else
         ds ← load show;
         sid ← getitem ds "id";
         title ← getitem ds "title";
         item ← alloc (<[key:=v]>
                   {[ "id" := sid; "action" := VStr "update"; "title" := title ]});
         queue_append item);;
      _save_queue;;
      _save_cache;;
      d' ← load show;
      _ ← getitem d' "title";
      ret ()
  end.

Definition queue_clear : M unit :=
  q ← self_queue;
  if decide (length q = 0)
  then raise EmptyQueue
  else
    modify_self (set_queue (Some []));;
    _save_queue.

(** One call of the API on a queue item. *)
Definition call_api (c : loc → call) (f : R → dict → R * api_result unit)
    (show : loc) : M unit :=
  d ← load show;
  r ← gets (λ _ d, api d);
  modify_self (set_api (f r d).1 (c show));;
  match (f r d).2 with
  | ApiOk _ => ret ()
  | ApiFail msg => raise (APIError msg)
  end.

(** The body of the loop of [process_queue]. *)
Definition process_item : M unit :=
  show ← queue_pop0;
  except_APIError
    (d ← load show;
     let operation := default VNone (d !! "action") in
     if decide (operation = VStr "add") then call_api AddShow add_show show
     else if decide (operation = VStr "update")
       then call_api UpdateShow update_show show
     else if decide (operation = VStr "delete")
       then call_api DeleteShow delete_show show
     else ret ())
    (λ msg,
      d ← load show;
      _ ← getitem d "title";
      queue_append show).

(** [for i in xrange(n): body] *)
Fixpoint for_range (n : nat) (body : M unit) : M unit :=
  match n with
  | 0 => ret ()
  | S n' => body;; for_range n' body
  end.

Definition process_queue : M unit :=
  q ← self_queue;
  if decide (length q ≠ 0)
  then
    for_range (length q) process_item;;
    _save_queue
  else ret ().

Definition unload : M unit :=
  process_queue;;
  _unlock.

End handler.

(** Modelled from the spec: [utils.get_filename] is not part of the
    module; the configuration's namespace [libbase] is the directory the
    three resource names are derived from. *)
Definition get_filename (libbase name : string) : string :=
  ("~/.wmal/" ++ libbase ++ "/" ++ name)%string.

(** [Data(messenger, config)] for a configuration the constructor
    accepts: it sets the three file names and the API object, and nothing
    else; [showlist] and [queue] stay the class attributes. *)
Definition init {R} (libbase mediatype : string) (r : R) : Data R :=
  {| showlist := None;
     queue := None;
     queue_file := get_filename libbase (mediatype ++ ".queue")%string;
     cache_file := get_filename libbase (mediatype ++ ".db")%string;
     lock_file := get_filename libbase "lock";
     api := r;
     calls := [] |}.

(** The state of a process in which the module has just been imported. *)
Definition fresh_proc (files : gmap string file) : Proc :=
  {| heap := []; class_queue := []; fs := files |}.

(** ** A scripted remote service

    An API object for concrete runs: every call on a queue item takes the
    next verdict of the script ([true]: the call succeeds, [false]: it
    raises [APIError]); with the script used up every call succeeds.
    [fetch_list] answers with [remote_list]. *)
Record script := mkScript {
  verdicts : list bool;
  remote_list : api_result (gmap value dict);
}.

Definition script_call (r : script) (_ : dict) : script * api_result unit :=
  match verdicts r with
  | [] => (r, ApiOk ())
  | b :: rest =>
      (mkScript rest (remote_list r),
       if b : bool then ApiOk () else ApiFail "remote call failed")
  end.

#[global] Instance script_remote : Remote script := {|
  fetch_list r := (r, remote_list r);
  add_show := script_call;
  update_show := script_call;
  delete_show := script_call;
  api_info _ := "script";
  media_info _ := "anime";
|}.

(** ** Notions the statements use *)

(** The search of the loop of [queue_update], without the update it ends
    with: the first queue item that has the id of [show] and the action
    ['update'], or the [KeyError] the loop stops with. *)
Fixpoint find_queued (h : list dict) (show : loc) (q : list loc)
    : result (option loc) :=
  match q with
  | [] => Ok None
  | x :: rest =>
      match deref h x !! "id", deref h show !! "id" with
      | None, _ | _, None => Raise (KeyError "id")
      | Some qid, Some sid =>
          if decide (qid = sid)
          then
            match deref h x !! "action" with
            | None => Raise (KeyError "action")
            | Some action =>
                if decide (action = VStr "update")
                then Ok (Some x)
                else find_queued h show rest
            end
          else find_queued h show rest
      end
  end.

(** A queue item is a pending update of the show identity [ident]. *)
Definition is_update_of (h : list dict) (ident : value) (x : loc) : Prop :=
  deref h x !! "id" = Some ident ∧ deref h x !! "action" = Some (VStr "update").

#[global] Instance is_update_of_dec h ident x : Decision (is_update_of h ident x).
Proof. unfold is_update_of. apply _. Defined.

(** The pending updates of an identity, in queue order. *)
Definition update_items (h : list dict) (ident : value) (q : list loc) : list loc :=
  filter (is_update_of h ident) q.

(** The state after [_save_queue] and [_save_cache]. *)
Definition persisted {R} (s : Proc * Data R) : Proc * Data R :=
  (set_fs (<[cache_file s.2:=PickledList (showlist_view s.1 s.2)]>
            (<[queue_file s.2:=PickledQueue (queue_view s.1 s.2)]> (fs s.1))) s.1,
   s.2).

(** The state with the contents of the list [self.queue] replaced. *)
Definition with_queue {R} (q : list loc) (s : Proc * Data R) : Proc * Data R :=
  match queue s.2 with
  | Some _ => (s.1, set_queue (Some q) s.2)
  | None => (set_class_queue q s.1, s.2)
  end.

(** The handler after more calls to its API object. *)
Definition with_api {R} (r : R) (cs : list call) (d : Data R) : Data R :=
  mkData (showlist d) (queue d) (queue_file d) (cache_file d) (lock_file d) r
    (calls d ++ cs).

(** ** The drain, as the specification words it

    One pass over the items that are queued when the drain starts, front
    to back, each item once.  An item goes to the remote service by its
    action tag; an item with another tag, or none, is dropped without a
    call.  An item whose call fails is kept for the next drain. *)
Section drain.
Context {R : Type} `{!Remote R}.

(** The call an item asks for, if its tag is one of the three. *)
Definition request (x : dict)
    : option ((loc → call) * (R → dict → R * api_result unit)) :=
  match x !! "action" with
  | None => None
  | Some action =>
      if decide (action = VStr "add") then Some (AddShow, add_show)
      else if decide (action = VStr "update") then Some (UpdateShow, update_show)
      else if decide (action = VStr "delete") then Some (DeleteShow, delete_show)
      else None
  end.

Inductive verdict :=
| Synced
| Failed
| Dropped.

#[global] Instance verdict_eq_dec : EqDecision verdict.
Proof. solve_decision. Defined.

(** The verdicts of the items, in order, and the API object after the
    pass; the answers of a call may depend on the calls before it. *)
Fixpoint attempts (h : list dict) (r : R) (items : list loc) : list verdict * R :=
  match items with
  | [] => ([], r)
  | x :: rest =>
      match request (deref h x) with
      | None => (Dropped :: (attempts h r rest).1, (attempts h r rest).2)
      | Some (_, f) =>
          let out := f r (deref h x) in
          ((match out.2 with ApiOk _ => Synced | ApiFail _ => Failed end)
             :: (attempts h out.1 rest).1,
           (attempts h out.1 rest).2)
      end
  end.

(** The calls of the pass: one for each item with a known tag. *)
Definition calls_of (h : list dict) (items : list loc) : list call :=
  omap (λ x, (λ cf, cf.1 x) <$> request (deref h x)) items.

(** The items a pass keeps: those with the verdict [Failed]. *)
Fixpoint failed_of (items : list loc) (vs : list verdict) : list loc :=
  match items, vs with
  | x :: items', v :: vs' =>
      if decide (v = Failed) then x :: failed_of items' vs' else failed_of items' vs'
  | _, _ => []
  end.

End drain.

(** The item a call is about. *)
Definition call_target (c : call) : option loc :=
  match c with
  | FetchList => None
  | AddShow l | UpdateShow l | DeleteShow l => Some l
  end.

(** The number of calls about an item in a log. *)
Definition dispatches (cs : list call) (x : loc) : nat :=
  length (filter (λ c, call_target c = Some x) cs).

(** ** Concrete handlers and runs *)

Definition show_X : dict := {[ "id" := VInt 1; "title" := VStr "X" ]}.

Definition show_scored : dict :=
  {[ "id" := VInt 1; "title" := VStr "X"; "score" := VInt 0 ]}.

(** A remote service with an empty list that accepts every call. *)
Definition quiet : script := mkScript [] (ApiOk ∅).

(** A remote service whose list has the one show [show_scored]. *)
Definition listing : script := mkScript [] (ApiOk {[ VInt 1 := show_scored ]}).

Definition mal (r : script) : Data script := init "mal" "anime" r.
Definition melative (r : script) : Data script := init "melative" "anime" r.

(** A first run on an empty directory that adds [show_X]. *)
Definition first_run : M unit :=
  start;;
  show ← alloc show_X;
  queue_add show.

(** A directory in which an earlier run left the add of [show_X] unsynced
    and the cache file is gone. *)
Definition unsynced_add : gmap string file :=
  {[ queue_file (mal quiet) := PickledQueue [<["action":=VStr "add"]> show_X] ]}.

(** A handler with three queued items, one of each action, and a remote
    service that refuses the second call. *)
Definition three_items : list dict :=
  [ {[ "id" := VInt 1; "title" := VStr "A"; "action" := VStr "add" ]};
    {[ "id" := VInt 2; "title" := VStr "B"; "action" := VStr "update" ]};
    {[ "id" := VInt 3; "title" := VStr "C"; "action" := VStr "delete" ]} ].

Definition three_queued : Proc * Data script :=
  ({| heap := three_items;
      class_queue := [];
      fs := {[ lock_file (mal quiet) := Marker ]} |},
   set_queue (Some [0; 1; 2]) (mal (mkScript [true; false; true] (ApiOk ∅)))).

(** The handler after [start] on an empty directory, with the remote
    list in the show list: [show_scored] is object 0. *)
Definition listed : Proc * Data script :=
  (start (fresh_proc ∅, mal listing)).1.

(** The handler after [start] on an empty directory and an empty remote
    list, and the caller's new dict [show_X], object 0, not yet added. *)
Definition ready : Proc * Data script :=
  ((start;; alloc show_X) (fresh_proc ∅, mal quiet)).1.

(** The state after the first run. *)
Definition after_first_run : Proc * Data script :=
  (first_run (fresh_proc ∅, mal quiet)).1.

(** After the first run, the action field of the added show is set to a
    word that is no action. *)
Definition relabelled : Proc * Data script :=
  ((first_run;; queue_update 0 "action" (VStr "watched"))
     (fresh_proc ∅, mal quiet)).1.

(** The score of the listed show is updated, then its id. *)
Definition renumbered : (Proc * Data script) * result unit :=
  (start;;
   queue_update 0 "score" (VInt 5);;
   queue_update 0 "id" (VInt 7)) (fresh_proc ∅, mal listing).

(** The title of the added show is updated, then its action field. *)
Definition retagged : (Proc * Data script) * result unit :=
  (first_run;;
   queue_update 0 "title" (VStr "Y");;
   queue_update 0 "action" (VStr "watched")) (fresh_proc ∅, mal quiet).

(** A restart on the directory [unsynced_add]: the cache is fetched anew,
    the queue is loaded, and the caller builds [show_X] again, object 1. *)
Definition restarted : Proc * Data script :=
  ((start;; alloc show_X) (fresh_proc unsynced_add, mal quiet)).1.

(** A queue item is a pending add of the show identity [ident]. *)
Definition is_add_of (h : list dict) (ident : value) (x : loc) : Prop :=
  deref h x !! "id" = Some ident ∧ deref h x !! "action" = Some (VStr "add").

#[global] Instance is_add_of_dec h ident x : Decision (is_add_of h ident x).
Proof. unfold is_add_of. apply _. Defined.

(** The pending adds of an identity, in queue order. *)
Definition add_items (h : list dict) (ident : value) (q : list loc) : list loc :=
  filter (is_add_of h ident) q.

(** A remote service that cannot be reached for the list. *)
Definition unreachable : script := mkScript [] (ApiFail "no route to host").

(** The three queued items with a remote service that accepts every call,
    and with one that refuses the three calls. *)
Definition three_accepted : Proc * Data script :=
  (three_queued.1, set_queue (Some [0; 1; 2]) (mal quiet)).

Definition three_refused : Proc * Data script :=
  (three_queued.1,
   set_queue (Some [0; 1; 2]) (mal (mkScript [false; false; false] (ApiOk ∅)))).

(** A queued add without a title, and a remote service that refuses it. *)
Definition untitled_queued : Proc * Data script :=
  ({| heap := [ {[ "id" := VInt 4; "action" := VStr "add" ]} ];
      class_queue := [];
      fs := {[ lock_file (mal quiet) := Marker ]} |},
   set_queue (Some [0]) (mal (mkScript [false] (ApiOk ∅)))).

(** The started handler of [ready] and a caller's dict without a title. *)
Definition ready_untitled : Proc * Data script :=
  ((start;; alloc {[ "id" := VInt 4 ]}) (fresh_proc ∅, mal quiet)).1.

(** The files the first run leaves, once its lock file is removed. *)
Definition left_files : gmap string file :=
  delete (lock_file (mal quiet)) (fs after_first_run.1).

(** * Properties *)

Section properties.
Context {R : Type} `{!Remote R}.
Implicit Types (p : Proc) (d : Data R) (s : @St R).

Ltac step_monad :=
  unfold mbind, M_bind, bind, mret, M_ret, ret, raise, gets,
    modify_proc, modify_self; simpl.

(** ** The lock *)

Lemma _lock_free p d :
  fs p !! lock_file d = None →
  _lock (p, d) = ((set_fs (<[lock_file d:=Marker]> (fs p)) p, d), Ok ()).
Proof.
  intros Hfree. unfold _lock, isfile, write_file. step_monad.
  rewrite Hfree. rewrite bool_decide_eq_false_2; [done|].
  by intros [? ?].
Qed.

Lemma _lock_held p d :
  is_Some (fs p !! lock_file d) →
  _lock (p, d) = ((p, d), Raise LockHeld).
Proof.
  intros Hheld. unfold _lock, isfile, write_file. step_monad.
  by rewrite bool_decide_eq_true_2.
Qed.

Lemma _unlock_held p d :
  is_Some (fs p !! lock_file d) →
  _unlock (p, d) = ((set_fs (delete (lock_file d) (fs p)) p, d), Ok ()).
Proof.
  intros Hheld. unfold _unlock, unlink, isfile. step_monad.
  by rewrite bool_decide_eq_true_2.
Qed.

Lemma _unlock_free p d :
  fs p !! lock_file d = None →
  _unlock (p, d) = ((p, d), Raise OSError).
Proof.
  intros Hfree. unfold _unlock, unlink, isfile. step_monad.
  rewrite bool_decide_eq_false_2; [done|].
  rewrite Hfree. by intros [? ?].
Qed.

Lemma _unlock_releases p d :
  fs (_unlock (p, d)).1.1 !! lock_file d = None.
Proof.
  destruct (fs p !! lock_file d) as [f|] eqn:Hf.
  - rewrite _unlock_held by eauto. simpl. apply lookup_delete_eq.
  - by rewrite _unlock_free.
Qed.

(** C8. Lock round trip: after [_lock] then [_unlock] the marker file is
    not there, whatever the first call did; a second [_lock] on the state
    the first one left raises [DataFatal] (lock held) and changes nothing;
    and on a free lock the first call succeeds and the release succeeds
    and gives back the state before the two calls. *)
Theorem lock_round_trip p d :
  let s1 := (_lock (p, d)).1 in
  fs (_unlock s1).1.1 !! lock_file d = None
  ∧ _lock s1 = (s1, Raise LockHeld)
  ∧ (fs p !! lock_file d = None →
     _lock (p, d) = (s1, Ok ()) ∧ _unlock s1 = ((p, d), Ok ())).
Proof.
  destruct (fs p !! lock_file d) as [f|] eqn:Hf.
  - rewrite _lock_held by eauto. simpl. split_and!.
    + apply (_unlock_releases p d).
    + apply _lock_held. eauto.
    + done.
  - rewrite _lock_free by done. simpl. split_and!.
    + apply (_unlock_releases (set_fs _ p) d).
    + apply _lock_held. simpl. rewrite lookup_insert_eq. eauto.
    + intros _. split; [done|].
      rewrite _unlock_held by (simpl; rewrite lookup_insert_eq; eauto).
      simpl. rewrite delete_insert_eq, delete_id by done.
      by destruct p.
Qed.

(** ** Running the primitive operations *)

Lemma bind_run {A B} (m : M A) (f : A → M B) s :
  (m ≫= f) s =
    match m s with
    | (s', Ok a) => f a s'
    | (s', Raise e) => (s', Raise e)
    end.
Proof. done. Qed.

Lemma load_run l s : load l s = (s, Ok (deref (heap s.1) l)).
Proof. done. Qed.

Lemma store_run l x p d :
  store l x (p, d) = ((set_heap (<[l:=x]> (heap p)) p, d), Ok ()).
Proof. done. Qed.

Lemma queue_set_contents_run q s :
  queue_set_contents q s = (with_queue q s, Ok ()).
Proof. by destruct s as [p [? [?|] ? ? ? ? ?]]. Qed.

Lemma ret_run {A} (a : A) s : ret a s = (s, Ok a).
Proof. done. Qed.

Lemma raise_run {A} e s : @raise R A e s = (s, Raise e).
Proof. done. Qed.

Lemma gets_run {A} (f : Proc → Data R → A) s : gets f s = (s, Ok (f s.1 s.2)).
Proof. done. Qed.

Lemma getitem_run x key s :
  getitem x key s =
    match x !! key with
    | Some v => (s, Ok v)
    | None => (s, Raise (KeyError key))
    end.
Proof. unfold getitem. by destruct (x !! key). Qed.

Lemma alloc_run x p d :
  alloc x (p, d) = ((set_heap (heap p ++ [x]) p, d), Ok (length (heap p))).
Proof. done. Qed.

Lemma queue_append_run l s :
  queue_append l s = (with_queue (queue_of s.1 s.2 ++ [l]) s, Ok ()).
Proof.
  unfold queue_append, self_queue. rewrite bind_run, gets_run.
  apply queue_set_contents_run.
Qed.

Lemma _save_queue_run s :
  _save_queue s =
    ((set_fs (<[queue_file s.2:=PickledQueue (queue_view s.1 s.2)]> (fs s.1)) s.1,
      s.2), Ok ()).
Proof. done. Qed.

Lemma _save_cache_run s :
  _save_cache s =
    ((set_fs (<[cache_file s.2:=PickledList (showlist_view s.1 s.2)]> (fs s.1)) s.1,
      s.2), Ok ()).
Proof. done. Qed.

Lemma alloc_map_run m p d :
  alloc_map m (p, d) =
    ((set_heap (heap p ++ (map_to_list m).*2) p, d),
     Ok (list_to_map (zip (map_to_list m).*1
                          (seq (length (heap p)) (length (map_to_list m).*2))))).
Proof. done. Qed.

Lemma alloc_all_run items p d :
  alloc_all items (p, d) =
    ((set_heap (heap p ++ items) p, d),
     Ok (seq (length (heap p)) (length items))).
Proof. done. Qed.

Lemma isfile_run path s :
  isfile path s = (s, Ok (bool_decide (is_Some (fs s.1 !! path)))).
Proof. done. Qed.

Lemma write_file_run path f p d :
  write_file path f (p, d) = ((set_fs (<[path:=f]> (fs p)) p, d), Ok ()).
Proof. done. Qed.

Lemma read_file_run path s :
  read_file path s =
    match fs s.1 !! path with
    | Some f => (s, Ok f)
    | None => (s, Raise IOError)
    end.
Proof. done. Qed.

Lemma modify_self_run f p d : modify_self f (p, d) = ((p, f d), Ok ()).
Proof. done. Qed.

Lemma modify_proc_run f p d : @modify_proc R f (p, d) = ((f p, d), Ok ()).
Proof. done. Qed.

Ltac project :=
  cbn [fst snd heap class_queue fs set_heap set_class_queue set_fs
       showlist queue queue_file cache_file lock_file api calls
       set_showlist set_queue set_api] in *.

Ltac run :=
  repeat progress
    (rewrite ?bind_run, ?load_run, ?store_run, ?getitem_run, ?ret_run,
       ?raise_run, ?gets_run, ?alloc_run, ?queue_append_run,
       ?queue_set_contents_run, ?_save_queue_run, ?_save_cache_run,
       ?alloc_map_run, ?alloc_all_run, ?isfile_run, ?write_file_run,
       ?read_file_run, ?modify_self_run, ?modify_proc_run;
     cbv iota beta;
     cbn [fst snd heap class_queue fs set_heap set_class_queue set_fs
          showlist queue queue_file cache_file lock_file api calls
          set_showlist set_queue set_api]).

(** ** The object store *)

Lemma deref_lookup_lt (h : list dict) l key x : deref h l !! key = Some x → l < length h.
Proof.
  unfold deref. destruct (h !! l) as [y|] eqn:Hl.
  - intros _. by eapply lookup_lt_Some.
  - simpl. by rewrite lookup_empty.
Qed.

Lemma deref_app_l (h h' : list dict) l : l < length h → deref (h ++ h') l = deref h l.
Proof. intros Hl. unfold deref. by rewrite lookup_app_l. Qed.

Lemma deref_insert_eq (h : list dict) l x : l < length h → deref (<[l:=x]> h) l = x.
Proof. intros Hl. unfold deref. by rewrite list_lookup_insert_eq. Qed.

Lemma deref_insert_ne (h : list dict) l l' x : l ≠ l' → deref (<[l:=x]> h) l' = deref h l'.
Proof. intros Hl. unfold deref. by rewrite list_lookup_insert_ne. Qed.

(** ** [queue_update] *)

Lemma find_queued_raise h show q e :
  find_queued h show q = Raise e → ∃ k, e = KeyError k.
Proof.
  induction q as [|x rest IH]; simpl; [done|].
  repeat (case_match; try done); try (intros [= <-]; eauto); apply IH.
Qed.

Lemma merge_into_queued_spec show key v q p d :
  merge_into_queued show key v q (p, d) =
    match find_queued (heap p) show q with
    | Ok (Some x) =>
        ((set_heap (<[x:=<[key:=v]> (deref (heap p) x)]> (heap p)) p, d), Ok true)
    | Ok None => ((p, d), Ok false)
    | Raise e => ((p, d), Raise e)
    end.
Proof.
  induction q as [|x rest IH]; simpl; [done|].
  unfold load, getitem. step_monad.
  destruct (deref (heap p) x !! "id") as [qid|]; simpl; [|done].
  destruct (deref (heap p) show !! "id") as [sid|]; simpl; [|done].
  destruct (decide (qid = sid)); [|apply IH].
  destruct (deref (heap p) x !! "action") as [a|]; simpl; [|done].
  destruct (decide (a = VStr "update")); [|apply IH].
  unfold store. by step_monad.
Qed.

Lemma queue_of_with_queue q s : queue_of (with_queue q s).1 (with_queue q s).2 = q.
Proof. by destruct s as [p [sl [q0|] ? ? ? ? ?]]. Qed.

Lemma queue_update_unfold show key v p d old :
  deref (heap p) show !! key = Some old →
  let h1 := <[show:=<[key:=v]> (deref (heap p) show)]> (heap p) in
  queue_update show key v (p, d) =
    match find_queued h1 show (queue_of p d) with
    | Raise e => ((set_heap h1 p, d), Raise e)
    | Ok (Some x) =>
        let s' := (set_heap (<[x:=<[key:=v]> (deref h1 x)]> h1) p, d) in
        (persisted s',
         match deref (heap s'.1) show !! "title" with
         | Some _ => Ok ()
         | None => Raise (KeyError "title")
         end)
    | Ok None =>
        match deref h1 show !! "id", deref h1 show !! "title" with
        | None, _ => ((set_heap h1 p, d), Raise (KeyError "id"))
        | Some _, None => ((set_heap h1 p, d), Raise (KeyError "title"))
        | Some sid, Some title =>
            let item := <[key:=v]>
              {[ "id" := sid; "action" := VStr "update"; "title" := title ]} in
            (persisted (with_queue (queue_of p d ++ [length h1])
                          (set_heap (h1 ++ [item]) p, d)),
             Ok ())
        end
    end.
Proof.
  intros Hkey h1. unfold queue_update. run. rewrite Hkey. run. fold h1.
  unfold self_queue. run.
  change (queue_of (set_heap h1 p) d) with (queue_of p d).
  rewrite merge_into_queued_spec. cbn [heap set_heap].
  destruct (find_queued h1 show (queue_of p d)) as [[x|]|e]; run.
  - destruct p. by destruct (deref _ show !! "title").
  - destruct (deref h1 show !! "id") as [sid|]; run; [|by destruct p].
    destruct (deref h1 show !! "title") as [title|] eqn:Htitle; run;
      [|by destruct p].
    assert (deref (h1 ++ [<[key:=v]> {["id" := sid; "action" := VStr "update";
              "title" := title]}]) show !! "title" = Some title) as Ht.
    { rewrite deref_app_l; [done|]. unfold h1. rewrite length_insert.
      by eapply deref_lookup_lt. }
    destruct p as [h cq f], d as [sl [q|] qf cf lf r cs];
      cbn [with_queue heap set_heap queue fst snd set_class_queue set_queue];
      by rewrite Ht.
  - by destruct p.
Qed.

Lemma heap_with_queue q s : heap (with_queue q s).1 = heap s.1.
Proof. by destruct s as [p [? [?|] ? ? ? ? ?]]. Qed.

Lemma showlist_with_queue q s : showlist (with_queue q s).2 = showlist s.2.
Proof. by destruct s as [p [? [?|] ? ? ? ? ?]]. Qed.

Lemma queue_of_persisted s : queue_of (persisted s).1 (persisted s).2 = queue_of s.1 s.2.
Proof. done. Qed.

Lemma heap_persisted s : heap (persisted s).1 = heap s.1.
Proof. done. Qed.

Lemma showlist_persisted s : showlist (persisted s).2 = showlist s.2.
Proof. done. Qed.

(** What a [queue_update] on an existing key does to the show itself,
    whichever way the call ends. *)
Lemma queue_update_present show key v p d old :
  deref (heap p) show !! key = Some old →
  ∃ s' r,
    queue_update show key v (p, d) = (s', r)
    ∧ (r = Ok () ∨ ∃ k, r = Raise (KeyError k))
    ∧ deref (heap s'.1) show = <[key:=v]> (deref (heap p) show)
    ∧ showlist s'.2 = showlist d
    ∧ ∃ new, queue_of s'.1 s'.2 = (queue_of p d ++ new).
Proof.
  intros Hkey. rewrite (queue_update_unfold _ _ _ _ _ _ Hkey). cbv zeta.
  pose proof (deref_lookup_lt _ _ _ _ Hkey) as Hlt.
  set (h1 := <[show:=<[key:=v]> (deref (heap p) show)]> (heap p)).
  assert (deref h1 show = <[key:=v]> (deref (heap p) show)) as Hh1
    by by apply deref_insert_eq.
  destruct (find_queued h1 show (queue_of p d)) as [[x|]|e] eqn:Hfind.
  - eexists _, _. split; [done|]. cbn [fst snd persisted heap set_fs set_heap].
    split_and!; [destruct (_ !! "title"); eauto| |done|by exists []; rewrite app_nil_r].
    destruct (decide (x = show)) as [->|Hne].
    + rewrite deref_insert_eq by (unfold h1; by rewrite length_insert).
      by rewrite Hh1, insert_insert_eq.
    + by rewrite deref_insert_ne.
  - destruct (deref h1 show !! "id") as [sid|];
      [|by eexists _, _; split_and!; eauto; exists []; rewrite app_nil_r].
    destruct (deref h1 show !! "title") as [title|];
      [|by eexists _, _; split_and!; eauto; exists []; rewrite app_nil_r].
    eexists _, _. split; [done|]. cbn [fst snd].
    rewrite queue_of_persisted, heap_persisted, showlist_persisted.
    rewrite queue_of_with_queue, heap_with_queue, showlist_with_queue.
    cbn [fst snd heap set_heap].
    split_and!; [eauto| |done|by eexists].
    rewrite deref_app_l; [done|]. unfold h1. by rewrite length_insert.
  - apply find_queued_raise in Hfind as [k ->].
    eexists _, _; split_and!; eauto. by exists []; rewrite app_nil_r.
Qed.

Lemma queue_update_absent show key v p d :
  deref (heap p) show !! key = None →
  queue_update show key v (p, d) = ((p, d), Raise InvalidKey).
Proof. intros Hkey. unfold queue_update. run. by rewrite Hkey. Qed.

(** C7. [queue_update] raises the invalid-key [DataError] exactly when
    [key] is not a field of the show, and then the object store, the show
    list, the queue and the files are as before the call; when [key] is a
    field, the show object has [key] set to [v] once the call is over, and
    the list [get] returns shows it at every identity the show is listed
    under. *)
Theorem queue_update_invalid_key show key v p d :
  let out := queue_update show key v (p, d) in
  (out.2 = Raise InvalidKey ↔ deref (heap p) show !! key = None)
  ∧ (deref (heap p) show !! key = None → out.1 = (p, d))
  ∧ (is_Some (deref (heap p) show !! key) →
     deref (heap out.1.1) show = <[key:=v]> (deref (heap p) show)
     ∧ (get out.1).2 = Ok (showlist d)
     ∧ ∀ m ident, showlist d = Some m → m !! ident = Some show →
         ∃ m', showlist_view out.1.1 out.1.2 = Some m'
               ∧ m' !! ident = Some (<[key:=v]> (deref (heap p) show))).
Proof.
  cbv zeta. destruct (deref (heap p) show !! key) as [old|] eqn:Hkey.
  - destruct (queue_update_present show key v p d old Hkey)
      as (s' & r & -> & Hr & Hshow & Hlist & _).
    cbn [fst snd]. split_and!.
    + split; [|done]. by destruct Hr as [->|[k ->]].
    + done.
    + intros _. split_and!; [done|by rewrite <- Hlist|].
      intros m ident Hm Hident. unfold showlist_view. rewrite Hlist, Hm.
      eexists. split; [done|]. rewrite lookup_fmap, Hident. simpl.
      by rewrite Hshow.
  - rewrite queue_update_absent by done. cbn [fst snd].
    split_and!; [done|done|]. by intros [? ?].
Qed.

(** ** [queue_add] *)

Lemma check_add_queued_state showid q s : (check_add_queued showid q s).1 = s.
Proof.
  induction q as [|x rest IH]; [done|].
  cbn [check_add_queued]. run.
  destruct (deref (heap s.1) x !! "id") as [qid|]; run; [|done].
  destruct (decide (qid = showid)); [|done]. run.
  destruct (deref (heap s.1) x !! "action") as [a|]; run; [|done].
  by destruct (decide (a = VStr "add")).
Qed.

Lemma check_add_queued_run showid q s :
  check_add_queued showid q s = (s, (check_add_queued showid q s).2).
Proof.
  rewrite <- (check_add_queued_state showid q s) at 2.
  by destruct (check_add_queued showid q s).
Qed.

(** The state a [queue_add] that returns leaves. *)
Lemma queue_add_ok show p d s' :
  queue_add show (p, d) = (s', Ok ()) →
  ∃ ident m,
    deref (heap p) show !! "id" = Some ident
    ∧ showlist d = Some m
    ∧ s' = persisted
        (with_queue (queue_of p d ++ [show])
           (set_heap (<[show:=<["action":=VStr "add"]> (deref (heap p) show)]>
                        (heap p)) p,
            set_showlist (Some (<[ident:=show]> m)) d)).
Proof.
  unfold queue_add, self_queue. run.
  destruct (deref (heap p) show !! "id") as [ident|]; run; [|done].
  destruct (showlist d) as [m|] eqn:Hm; run; [|done].
  destruct (match m !! ident with Some l => truthy (deref (heap p) l) | None => false end);
    run; [done|].
  rewrite check_add_queued_run.
  destruct (check_add_queued ident _ _).2; run; [|done].
  destruct (deref _ show !! "title"); run; [|done].
  intros [= <-]. exists ident, m. split_and!; [done|done|].
  by destruct p, d as [? [?|] ? ? ? ? ?].
Qed.

(** The state a [queue_add] leaves when it finds the add queued already:
    the show is in the show list by then. *)
Lemma queue_add_duplicate_queue_item show p d s' :
  queue_add show (p, d) = (s', Raise DuplicateQueueItem) →
  ∃ ident m,
    deref (heap p) show !! "id" = Some ident
    ∧ showlist d = Some m
    ∧ s' = (p, set_showlist (Some (<[ident:=show]> m)) d).
Proof.
  unfold queue_add, self_queue. run.
  destruct (deref (heap p) show !! "id") as [ident|]; run; [|done].
  destruct (showlist d) as [m|] eqn:Hm; run; [|done].
  destruct (match m !! ident with Some l => truthy (deref (heap p) l) | None => false end);
    run; [done|].
  rewrite check_add_queued_run.
  destruct (check_add_queued ident _ _).2; run.
  - by destruct (deref _ show !! "title").
  - intros [= <- ->]. by exists ident, m.
Qed.

(** A show whose id is in the show list is refused, and nothing changes. *)
Lemma queue_add_duplicate_show show p d ident m l :
  deref (heap p) show !! "id" = Some ident →
  showlist d = Some m →
  m !! ident = Some l →
  deref (heap p) l ≠ ∅ →
  queue_add show (p, d) = ((p, d), Raise DuplicateShow).
Proof.
  intros Hid Hm Hl Hne. unfold queue_add. run. rewrite Hid. run.
  rewrite Hm. run. rewrite Hl. unfold truthy. by rewrite bool_decide_eq_true_2.
Qed.

(** C10. A [queue_add] that returns has appended the reference [show]
    itself to the queue and has created no object; the one object, which
    the show list holds under the show's id and [get] therefore shows, has
    the extra field ['action'] with the value ['add']; and a
    [queue_update] of that show on any of its fields changes the field of
    the object that is still in the queue. *)
Theorem queue_add_shares_show show p d s1 :
  queue_add show (p, d) = (s1, Ok ()) →
  let item := <["action":=VStr "add"]> (deref (heap p) show) in
  queue_of s1.1 s1.2 = (queue_of p d ++ [show])
  ∧ length (heap s1.1) = length (heap p)
  ∧ deref (heap s1.1) show = item
  ∧ item !! "action" = Some (VStr "add")
  ∧ (∃ ident m' mv,
       deref (heap p) show !! "id" = Some ident
       ∧ (get s1).2 = Ok (Some m')
       ∧ m' !! ident = Some show
       ∧ showlist_view s1.1 s1.2 = Some mv
       ∧ mv !! ident = Some item)
  ∧ ∀ key v, is_Some (item !! key) →
      let s2 := (queue_update show key v s1).1 in
      show ∈ queue_of s2.1 s2.2
      ∧ deref (heap s2.1) show !! key = Some v.
Proof.
  intros Hadd. cbv zeta.
  destruct (queue_add_ok _ _ _ _ Hadd) as (ident & m & Hid & Hm & ->).
  pose proof (deref_lookup_lt _ _ _ _ Hid) as Hlt.
  set (item := <["action":=VStr "add"]> (deref (heap p) show)) in *.
  rewrite queue_of_persisted, heap_persisted, queue_of_with_queue, heap_with_queue.
  cbn [fst snd heap set_heap].
  assert (deref (<[show:=item]> (heap p)) show = item) as Hitem
    by by apply deref_insert_eq.
  split_and!.
  - done.
  - by rewrite length_insert.
  - done.
  - apply lookup_insert_eq.
  - exists ident, (<[ident:=show]> m), (deref (<[show:=item]> (heap p)) <$> <[ident:=show]> m).
    split_and!; [done| |apply lookup_insert_eq| |].
    + unfold get. rewrite gets_run. cbn [fst snd].
      by rewrite showlist_persisted, showlist_with_queue.
    + unfold showlist_view.
      rewrite showlist_persisted, heap_persisted, showlist_with_queue, heap_with_queue.
      done.
    + by rewrite lookup_fmap, lookup_insert_eq; simpl; rewrite Hitem.
  - intros key v [old Hold]. cbv zeta.
    set (s1 := persisted _).
    assert (deref (heap s1.1) show !! key = Some old) as Hkey.
    { unfold s1. rewrite heap_persisted, heap_with_queue. cbn [fst heap set_heap].
      by rewrite Hitem. }
    destruct s1 as [p1 d1] eqn:Hs1.
    destruct (queue_update_present show key v p1 d1 old Hkey)
      as (s2 & r & -> & _ & Hshow & _ & new & Hq).
    cbn [fst snd] in *. split.
    + rewrite Hq. apply elem_of_app. left.
      change (show ∈ queue_of (p1, d1).1 (p1, d1).2). rewrite <- Hs1. unfold s1.
      rewrite queue_of_persisted, queue_of_with_queue.
      apply elem_of_app. right. by apply list_elem_of_singleton.
    + rewrite Hshow. apply lookup_insert_eq.
Qed.

(** ** [queue_clear] *)

(** C6. [queue_clear] raises the empty-queue [DataError] on an empty
    queue and changes nothing; on a queue with items it gives the handler
    an empty queue, writes that empty queue to the queue file and to no
    other file, and leaves the show list, and the shows it refers to, as
    they were. *)
Theorem queue_clear_spec p d :
  (queue_of p d = [] → queue_clear (p, d) = ((p, d), Raise EmptyQueue))
  ∧ (queue_of p d ≠ [] →
     ∃ p' d',
       queue_clear (p, d) = ((p', d'), Ok ())
       ∧ queue_of p' d' = []
       ∧ fs p' = <[queue_file d:=PickledQueue []]> (fs p)
       ∧ showlist d' = showlist d
       ∧ heap p' = heap p
       ∧ showlist_view p' d' = showlist_view p d).
Proof.
  unfold queue_clear, self_queue. split; intros Hq; run.
  - by rewrite Hq.
  - destruct (decide (length (queue_of p d) = 0)) as [Hlen|_].
    { by apply length_zero_iff_nil in Hlen. }
    run. by eexists _, _.
Qed.

(** ** [start] *)

(** The objects made for an unpickled or fetched show list hold its
    contents, also once more objects have been made. *)
Lemma alloc_map_contents (kvs : list (value * dict)) (h extra : list dict) :
  deref ((h ++ kvs.*2) ++ extra)
    <$> (list_to_map (zip kvs.*1 (seq (length h) (length kvs.*2))) : gmap value loc)
  = list_to_map kvs.
Proof.
  revert h. induction kvs as [|[k x] kvs IH]; intros h.
  - simpl. apply fmap_empty.
  - cbn [fmap list_fmap fst snd length seq zip zip_with list_to_map uncurry].
    simpl. rewrite fmap_insert. f_equal.
    + unfold deref. rewrite <- app_assoc, lookup_app_r by done.
      by rewrite Nat.sub_diag.
    + specialize (IH (h ++ [x])). rewrite length_app in IH. simpl in IH.
      rewrite Nat.add_1_r, <- !app_assoc in IH. simpl in IH.
      by rewrite <- app_assoc.
Qed.

(** The end of [start]: the queue is loaded if its file is there. It
    calls nothing, writes nothing, and only adds objects. *)
Lemma start_queue_part s :
  let out := (queued ← _queue_exists;
              (if queued : bool then _load_queue else ret ());;
              r ← gets (λ _ d, api d);
              ret (api_info r, media_info r)) s in
  showlist out.1.2 = showlist s.2
  ∧ calls out.1.2 = calls s.2
  ∧ api out.1.2 = api s.2
  ∧ fs out.1.1 = fs s.1
  ∧ ∃ extra, heap out.1.1 = (heap s.1 ++ extra).
Proof.
  destruct s as [p d]. cbv zeta. unfold _queue_exists. run.
  destruct (bool_decide (is_Some (fs p !! queue_file d))); run.
  - unfold _load_queue, read_file. run.
    destruct (fs p !! queue_file d) as [[| |items|]|]; run;
      try (split_and!; try done; by exists []; rewrite app_nil_r).
    split_and!; try done. by eexists.
  - split_and!; try done. by exists []; rewrite app_nil_r.
Qed.

(** [start] on a free lock and a readable cache file. *)
Lemma start_cached p d snap :
  fs p !! lock_file d = None →
  fs p !! cache_file d = Some (PickledList (Some snap)) →
  let out := start (p, d) in
  showlist_view out.1.1 out.1.2 = Some snap
  ∧ calls out.1.2 = calls d
  ∧ api out.1.2 = api d.
Proof.
  intros Hlock Hcache. cbv zeta.
  assert (lock_file d ≠ cache_file d) as Hne by congruence.
  pose proof start_queue_part as Htail. unfold start.
  set (tail := _queue_exists ≫= _) in *. clearbody tail.
  run. rewrite _lock_free by done. run.
  unfold _cache_exists. run.
  rewrite lookup_insert_ne, Hcache by done.
  rewrite bool_decide_eq_true_2 by eauto. run.
  unfold _load_cache. run.
  rewrite lookup_insert_ne, Hcache by done. run.
  match goal with |- context [tail ?s] => specialize (Htail s); destruct (tail s) as [s' r] end.
  cbn [fst snd] in *. destruct Htail as (Hlist & Hcalls & Hapi & _ & extra & Hheap).
  destruct d. cbn [fst snd showlist calls api set_showlist heap set_heap] in *.
  split_and!; [|done|done].
  unfold showlist_view. rewrite Hlist, Hheap. simpl. f_equal.
  rewrite alloc_map_contents. apply list_to_map_to_list.
Qed.

(** [start] on a free lock and a cache file of any contents: the API
    object is not called. *)
Lemma start_cached_no_call p d :
  fs p !! lock_file d = None →
  is_Some (fs p !! cache_file d) →
  calls (start (p, d)).1.2 = calls d.
Proof.
  intros Hlock [f Hcache].
  assert (lock_file d ≠ cache_file d) as Hne by congruence.
  pose proof start_queue_part as Htail. unfold start.
  set (tail := _queue_exists ≫= _) in *. clearbody tail.
  run. rewrite _lock_free by done. run.
  unfold _cache_exists. run.
  rewrite lookup_insert_ne, Hcache by done.
  rewrite bool_decide_eq_true_2 by eauto. run.
  unfold _load_cache. run.
  rewrite lookup_insert_ne, Hcache by done. run.
  destruct f as [|[snap|]| |]; run; try done.
  - match goal with |- context [tail ?s] =>
      specialize (Htail s); destruct (tail s) as [s' r] end.
    cbn [fst snd] in *. by destruct Htail as (_ & -> & _).
  - match goal with |- context [tail ?s] =>
      specialize (Htail s); destruct (tail s) as [s' r] end.
    cbn [fst snd] in *. by destruct Htail as (_ & -> & _).
Qed.

(** [start] on a free lock and no cache file. *)
Lemma start_bootstrap p d :
  fs p !! lock_file d = None →
  fs p !! cache_file d = None →
  lock_file d ≠ cache_file d →
  let out := start (p, d) in
  calls out.1.2 = calls d ++ [FetchList]
  ∧ match (fetch_list (api d)).2 with
    | ApiOk m =>
        showlist_view out.1.1 out.1.2 = Some m
        ∧ fs out.1.1 !! cache_file d = Some (PickledList (Some m))
    | ApiFail msg =>
        out.2 = Raise (APIFatal msg)
        ∧ showlist out.1.2 = showlist d
        ∧ fs out.1.1 !! cache_file d = None
    end.
Proof.
  intros Hlock Hcache Hne. cbv zeta.
  destruct d as [sl q qf cf lf r0 cs].
  cbn [lock_file cache_file calls api showlist] in *.
  pose proof start_queue_part as Htail. unfold start.
  set (tail := _queue_exists ≫= _) in *. clearbody tail.
  run. rewrite _lock_free by done. run.
  unfold _cache_exists. run.
  rewrite lookup_insert_ne, Hcache by done.
  rewrite bool_decide_eq_false_2 by (by intros [? ?]). run.
  unfold except_APIError, download_data. run.
  destruct (fetch_list r0).2 as [m|msg]; run.
  - match goal with |- context [tail ?s] =>
      specialize (Htail s); destruct (tail s) as [s' r] end.
    project.
    destruct Htail as (Hlist & Hcalls & Hapi & Hfs & extra & Hheap).
    split; [done|]. split.
    + unfold showlist_view. rewrite Hlist, Hheap. simpl. f_equal.
      rewrite alloc_map_contents. apply list_to_map_to_list.
    + rewrite Hfs. rewrite lookup_insert_eq. do 3 f_equal.
      unfold showlist_view. simpl. f_equal.
      rewrite <- (app_nil_r (heap p ++ _)).
      rewrite alloc_map_contents. apply list_to_map_to_list.
  - split_and!; [done..|]. by rewrite lookup_insert_ne.
Qed.

(** C4. On a free lock, [start] with a readable cache file loads the show
    list from it, and with a cache file of any contents makes no call to
    the API object; with no cache file it calls [fetch_list], once and
    nothing else, and the fetched list becomes the show list and is
    written to the cache file in the same call, while an [APIError] of
    the fetch ends [start] with [APIFatal], with no show list and no
    cache file. *)
Theorem start_cache_or_fetch p d :
  fs p !! lock_file d = None →
  (∀ snap, fs p !! cache_file d = Some (PickledList (Some snap)) →
     showlist_view (start (p, d)).1.1 (start (p, d)).1.2 = Some snap)
  ∧ (is_Some (fs p !! cache_file d) →
     calls (start (p, d)).1.2 = calls d)
  ∧ (fs p !! cache_file d = None → lock_file d ≠ cache_file d →
     let out := start (p, d) in
     calls out.1.2 = calls d ++ [FetchList]
     ∧ match (fetch_list (api d)).2 with
       | ApiOk m =>
           showlist_view out.1.1 out.1.2 = Some m
           ∧ fs out.1.1 !! cache_file d = Some (PickledList (Some m))
       | ApiFail msg =>
           out.2 = Raise (APIFatal msg)
           ∧ showlist out.1.2 = showlist d
           ∧ fs out.1.1 !! cache_file d = None
       end).
Proof.
  intros Hlock. split_and!.
  - intros snap Hcache. by apply start_cached.
  - by apply start_cached_no_call.
  - by apply start_bootstrap.
Qed.

(** ** [process_queue] *)

Lemma with_queue_with_queue q q' s : with_queue q' (with_queue q s) = with_queue q' s.
Proof. by destruct s as [[] [? [?|] ? ? ? ? ?]]. Qed.

Lemma with_api_set_api r c r' cs d :
  with_api r' cs (set_api r c d) = with_api r' (c :: cs) d.
Proof. destruct d. unfold with_api, set_api. simpl. by rewrite <- app_assoc. Qed.

Lemma with_queue_set_api q r c p d :
  with_queue q (p, set_api r c d) = ((with_queue q (p, d)).1, set_api r c (with_queue q (p, d)).2).
Proof. by destruct p, d as [? [?|] ? ? ? ? ?]. Qed.

Lemma call_api_run c f show p d :
  call_api c f show (p, d) =
    ((p, set_api (f (api d) (deref (heap p) show)).1 (c show) d),
     match (f (api d) (deref (heap p) show)).2 with
     | ApiOk _ => Ok ()
     | ApiFail msg => Raise (APIError msg)
     end).
Proof.
  unfold call_api. run.
  by destruct (f (api d) (deref (heap p) show)).2.
Qed.

(** One turn of the loop, on a queue that starts with [x]. *)
Lemma process_item_run x rest p d :
  queue_of p d = x :: rest →
  is_Some (deref (heap p) x !! "title") →
  process_item (p, d) =
    match request (deref (heap p) x) with
    | None => (with_queue rest (p, d), Ok ())
    | Some (c, f) =>
        let out := f (api d) (deref (heap p) x) in
        (with_queue (rest ++ match out.2 with ApiOk _ => [] | ApiFail _ => [x] end)
           (p, set_api out.1 (c x) d),
         Ok ())
    end.
Proof.
  intros Hq [title Htitle].
  assert (∀ c f,
    except_APIError (call_api c f x)
      (λ _, d0 ← load x; _ ← getitem d0 "title"; queue_append x)
      (with_queue rest (p, d)) =
    (with_queue (rest ++ match (f (api d) (deref (heap p) x)).2 with
                         | ApiOk _ => [] | ApiFail _ => [x] end)
       (p, set_api (f (api d) (deref (heap p) x)).1 (c x) d), Ok ())) as Hcall.
  { intros c f. unfold except_APIError.
    destruct p as [h cq f0], d as [sl [q0|] qf cf lf r cs];
      cbn [with_queue queue fst snd set_queue set_class_queue heap class_queue fs
           showlist queue_file cache_file lock_file api calls] in *;
      rewrite call_api_run; project;
      (destruct (f r (deref h x)).2 as [[]|msg];
       [by rewrite app_nil_r|]);
      run; rewrite Htitle; run; done. }
  unfold process_item, queue_pop0, self_queue. run.
  rewrite Hq. run.
  unfold except_APIError in *. rewrite bind_run, load_run. cbv iota beta.
  rewrite (heap_with_queue rest (p, d)). cbn [fst].
  unfold request.
  destruct (deref (heap p) x !! "action") as [a|]; simpl.
  - destruct (decide (a = VStr "add")); [apply Hcall|].
    destruct (decide (a = VStr "update")); [apply Hcall|].
    destruct (decide (a = VStr "delete")); [apply Hcall|]. done.
  - done.
Qed.

(** The loop of [process_queue], started on a queue that is the items
    still to do followed by the items kept so far. *)
Lemma drain_loop items : ∀ acc p d,
  queue_of p d = items ++ acc →
  Forall (λ x, is_Some (deref (heap p) x !! "title")) items →
  for_range (length items) process_item (p, d) =
    (with_queue (acc ++ failed_of items (attempts (heap p) (api d) items).1)
       (p, with_api (attempts (heap p) (api d) items).2 (calls_of (heap p) items) d),
     Ok ()).
Proof.
  induction items as [|x rest IH]; intros acc p d Hq Htitles.
  - simpl in *. rewrite ret_run, app_nil_r.
    destruct p, d as [? [?|] ? ? ? ? ?]; unfold queue_of in Hq; simpl in Hq; subst;
      unfold with_queue, with_api; simpl; by rewrite app_nil_r.
  - apply Forall_cons in Htitles as [Htitle Htitles].
    cbn [length for_range]. rewrite bind_run.
    rewrite (process_item_run x (rest ++ acc)) by done.
    cbn [attempts calls_of omap failed_of list_omap].
    destruct (request (deref (heap p) x)) as [[c f]|] eqn:Hreq; cbv zeta.
    + destruct p as [h cq f0], d as [sl [q0|] qf cf lf r cs];
        unfold queue_of in Hq; simpl in Hq; subst;
        cbn [with_queue queue fst snd set_queue set_class_queue heap class_queue fs
             showlist queue_file cache_file lock_file api calls set_api] in *;
        cbv iota beta;
        (destruct (f r (deref h x)).2 as [[]|msg] eqn:Hres;
         [rewrite (IH acc) by (by rewrite ?app_nil_r)
         |rewrite (IH (acc ++ [x])) by (by rewrite ?app_assoc)]);
        cbn [fmap option_fmap option_map fst snd heap api with_queue with_api queue
             set_queue set_class_queue showlist queue_file cache_file lock_file
             calls class_queue fs];
        unfold calls_of, with_api, set_api, set_queue; simpl;
        rewrite <- ?app_assoc; done.
    + destruct p as [h cq f0], d as [sl [q0|] qf cf lf r cs];
        unfold queue_of in Hq; simpl in Hq; subst;
        cbn [with_queue queue fst snd set_queue set_class_queue heap class_queue fs
             showlist queue_file cache_file lock_file api calls set_api] in *;
        cbv iota beta;
        rewrite (IH acc) by done;
        cbn [fmap option_fmap option_map fst snd heap api with_queue with_api queue
             set_queue set_class_queue showlist queue_file cache_file lock_file
             calls class_queue fs];
        done.
Qed.

Lemma attempts_length h r items : length (attempts h r items).1 = length items.
Proof.
  revert r. induction items as [|x rest IH]; intros r; [done|].
  cbn [attempts]. destruct (request (deref h x)) as [[c f]|]; simpl; by rewrite IH.
Qed.

Lemma failed_of_sublist items vs : sublist (failed_of items vs) items.
Proof.
  revert vs. induction items as [|x rest IH]; intros [|v vs]; simpl;
    try apply sublist_nil_l.
  destruct (decide (v = Failed)); by constructor.
Qed.

Lemma request_target x c f l : request x = Some (c, f) → call_target (c l) = Some l.
Proof.
  unfold request. destruct (x !! "action") as [a|]; [|done].
  repeat case_decide; by intros [= <- <-].
Qed.

(** The calls of a pass about one item: as many as the item has places in
    the queue if its tag is known, none otherwise. *)
Lemma dispatches_calls_of h items x :
  dispatches (calls_of h items) x =
    if decide (is_Some (request (deref h x)))
    then length (filter (x =.) items)
    else 0.
Proof.
  unfold dispatches, calls_of. induction items as [|y rest IH].
  - simpl. by case_decide.
  - cbn [omap list_omap]. rewrite filter_cons.
    destruct (request (deref h y)) as [[c f]|] eqn:Hreq; cbn [fmap option_fmap option_map].
    + rewrite filter_cons. cbn [fst]. rewrite (request_target _ _ _ y Hreq).
      destruct (decide (x = y)) as [->|Hne].
      * rewrite decide_True by done. simpl. rewrite IH.
        rewrite Hreq. by rewrite decide_True by eauto.
      * rewrite decide_False by congruence. apply IH.
    + destruct (decide (x = y)) as [->|Hne]; [|apply IH].
      rewrite IH. rewrite Hreq. rewrite !decide_False; [done|by intros [? ?]..].
Qed.

(** [process_queue] on a queue with items. *)
Lemma process_queue_run p d :
  queue_of p d ≠ [] →
  Forall (λ x, is_Some (deref (heap p) x !! "title")) (queue_of p d) →
  let items := queue_of p d in
  let s1 := with_queue (failed_of items (attempts (heap p) (api d) items).1)
              (p, with_api (attempts (heap p) (api d) items).2
                    (calls_of (heap p) items) d) in
  process_queue (p, d) =
    ((set_fs (<[queue_file d:=PickledQueue (queue_view s1.1 s1.2)]> (fs p)) s1.1,
      s1.2), Ok ()).
Proof.
  intros Hne Htitles. cbv zeta. unfold process_queue, self_queue. run.
  destruct (decide (length (queue_of p d) ≠ 0)) as [_|Hlen].
  2:{ destruct (queue_of p d); [done|]. simpl in Hlen. lia. }
  rewrite bind_run.
  rewrite (drain_loop (queue_of p d) [] p d) by (by rewrite ?app_nil_r).
  cbv iota beta. rewrite _save_queue_run. cbn [app].
  by destruct p, d as [? [?|] ? ? ? ? ?].
Qed.

(** [process_queue] on an empty queue does nothing. *)
Lemma process_queue_empty p d :
  queue_of p d = [] → process_queue (p, d) = ((p, d), Ok ()).
Proof. intros Hq. unfold process_queue, self_queue. run. by rewrite Hq. Qed.

(** C1 (amended). [process_queue] on a queue that is not empty, whose
    items all have a title, returns after one pass over the items queued
    at the call: every item gets one verdict; the calls made are, in queue
    order, one call for each item whose action tag is ['add'], ['update']
    or ['delete'] and none for an item with another tag, which is dropped;
    the queue afterwards is the items whose call raised [APIError], in
    their original order, and this is the queue written to the queue
    file; the objects and the show list are untouched. *)
Theorem process_queue_one_pass p d :
  queue_of p d ≠ [] →
  Forall (λ x, is_Some (deref (heap p) x !! "title")) (queue_of p d) →
  let items := queue_of p d in
  let vs := (attempts (heap p) (api d) items).1 in
  ∃ s',
    process_queue (p, d) = (s', Ok ())
    ∧ length vs = length items
    ∧ calls s'.2 = calls d ++ calls_of (heap p) items
    ∧ (∀ x, dispatches (calls_of (heap p) items) x =
         if decide (is_Some (request (deref (heap p) x)))
         then length (filter (x =.) items)
         else 0)
    ∧ api s'.2 = (attempts (heap p) (api d) items).2
    ∧ queue_of s'.1 s'.2 = failed_of items vs
    ∧ sublist (failed_of items vs) items
    ∧ fs s'.1 = <[queue_file d:=PickledQueue (deref (heap p) <$> failed_of items vs)]> (fs p)
    ∧ heap s'.1 = heap p
    ∧ showlist s'.2 = showlist d.
Proof.
  intros Hne Htitles. cbv zeta. eexists. split.
  { by apply process_queue_run. }
  cbn [fst snd heap fs set_fs].
  rewrite heap_with_queue, showlist_with_queue. cbn [fst snd].
  split_and!.
  - apply attempts_length.
  - by destruct p, d as [? [?|] ? ? ? ? ?].
  - apply dispatches_calls_of.
  - by destruct p, d as [? [?|] ? ? ? ? ?].
  - apply queue_of_with_queue.
  - apply failed_of_sublist.
  - unfold queue_view. rewrite queue_of_with_queue, heap_with_queue.
    by destruct p, d as [? [?|] ? ? ? ? ?].
  - done.
  - done.
Qed.

(** ** [unload] *)

Lemma lock_file_with_queue q s : lock_file (with_queue q s).2 = lock_file s.2.
Proof. by destruct s as [p [? [?|] ? ? ? ? ?]]. Qed.

(** C9. [unload] on a queue whose items all have a title makes the calls
    of one drain and leaves no lock file, whatever the API object answers
    and whichever items the drain keeps; when the lock file was there,
    [unload] returns without an exception. *)
Theorem unload_releases_lock p d :
  Forall (λ x, is_Some (deref (heap p) x !! "title")) (queue_of p d) →
  let items := queue_of p d in
  let out := unload (p, d) in
  fs out.1.1 !! lock_file d = None
  ∧ calls out.1.2 = calls d ++ calls_of (heap p) items
  ∧ queue_of out.1.1 out.1.2 = failed_of items (attempts (heap p) (api d) items).1
  ∧ (is_Some (fs p !! lock_file d) → out.2 = Ok ()).
Proof.
  intros Htitles. cbv zeta. unfold unload. rewrite bind_run.
  destruct (decide (queue_of p d = [])) as [Hq|Hq].
  - rewrite process_queue_empty by done. cbv iota beta. rewrite Hq. simpl.
    rewrite app_nil_r.
    destruct (fs p !! lock_file d) as [f|] eqn:Hlock.
    + rewrite _unlock_held by eauto. cbn [fst snd fs set_fs].
      by rewrite lookup_delete_eq.
    + rewrite _unlock_free by done. cbn [fst snd].
      split_and!; [done..|]. by intros [? ?].
  - rewrite process_queue_run by done. cbv iota beta.
    set (s1 := with_queue _ _).
    assert (lock_file s1.2 = lock_file d) as Hlf
      by (unfold s1; by rewrite lock_file_with_queue).
    assert (calls s1.2 = calls d ++ calls_of (heap p) (queue_of p d)) as Hcalls
      by by destruct p, d as [? [?|] ? ? ? ? ?].
    assert (queue_of s1.1 s1.2
            = failed_of (queue_of p d) (attempts (heap p) (api d) (queue_of p d)).1)
      as Hqueue by apply queue_of_with_queue.
    match goal with |- context [_unlock (?p1, ?d1)] =>
      set (p' := p1); set (d' := d1) end.
    destruct (fs p' !! lock_file d') as [f|] eqn:Hlock.
    + rewrite _unlock_held by eauto. cbn [fst snd fs set_fs].
      rewrite <- Hlf. split_and!; [apply lookup_delete_eq|done..].
    + rewrite _unlock_free by done. cbn [fst snd].
      split_and!; [by rewrite <- Hlf|done..|].
      intros [f Hf]. unfold p', d' in Hlock. cbn [fs set_fs] in Hlock.
      rewrite Hlf in Hlock.
      destruct (decide (queue_file d = lock_file d)) as [Heq|Hneq].
      * by rewrite Heq, lookup_insert_eq in Hlock.
      * rewrite lookup_insert_ne in Hlock by done. congruence.
Qed.

(** ** Two updates of one show *)

Lemma deref_set_field (h : list dict) l k v y k' :
  l < length h →
  deref (<[l:=<[k:=v]> (deref h l)]> h) y !! k' =
    if decide (y = l ∧ k' = k) then Some v else deref h y !! k'.
Proof.
  intros Hl. destruct (decide (y = l)) as [->|Hy].
  - rewrite deref_insert_eq by done. destruct (decide (k' = k)) as [->|Hk].
    + rewrite decide_True by done. apply lookup_insert_eq.
    + rewrite decide_False by (by intros [_ ?]). by apply lookup_insert_ne.
  - rewrite decide_False by (by intros [? _]). by rewrite deref_insert_ne.
Qed.

Lemma update_items_ext (h h' : list dict) ident q :
  (∀ y, y ∈ q → deref h y !! "id" = deref h' y !! "id"
               ∧ deref h y !! "action" = deref h' y !! "action") →
  update_items h ident q = update_items h' ident q.
Proof.
  unfold update_items. induction q as [|y rest IH]; intros Hsame; [done|].
  rewrite !filter_cons.
  destruct (Hsame y) as [Hid Haction]; [left|].
  rewrite IH by (intros z Hz; apply Hsame; by right).
  destruct (decide (is_update_of h ident y)) as [Hy|Hy],
    (decide (is_update_of h' ident y)) as [Hy'|Hy']; try done;
    unfold is_update_of in *; rewrite Hid, Haction in Hy; done.
Qed.

Lemma find_queued_None h show q ident :
  deref h show !! "id" = Some ident →
  find_queued h show q = Ok None →
  update_items h ident q = [].
Proof.
  intros Hid. unfold update_items. induction q as [|y rest IH]; [done|].
  cbn [find_queued]. rewrite Hid.
  destruct (deref h y !! "id") as [qid|] eqn:Hqid; [|done].
  destruct (decide (qid = ident)) as [->|Hne].
  - destruct (deref h y !! "action") as [a|] eqn:Haction; [|done].
    destruct (decide (a = VStr "update")) as [->|Ha]; [done|].
    intros Hrest. rewrite filter_cons_False; [by apply IH|].
    intros [_ ?]. congruence.
  - intros Hrest. rewrite filter_cons_False; [by apply IH|].
    intros [? _]. congruence.
Qed.

Lemma find_queued_Some h show q ident x :
  deref h show !! "id" = Some ident →
  find_queued h show q = Ok (Some x) →
  ∃ rest, update_items h ident q = x :: rest.
Proof.
  intros Hid. unfold update_items. induction q as [|y rest IH]; [done|].
  cbn [find_queued]. rewrite Hid.
  destruct (deref h y !! "id") as [qid|] eqn:Hqid; [|done].
  destruct (decide (qid = ident)) as [->|Hne].
  - destruct (deref h y !! "action") as [a|] eqn:Haction; [|done].
    destruct (decide (a = VStr "update")) as [->|Ha].
    + intros [= ->]. rewrite filter_cons_True by done. eauto.
    + intros Hrest. rewrite filter_cons_False; [by apply IH|].
      intros [_ ?]. congruence.
  - intros Hrest. rewrite filter_cons_False; [by apply IH|].
    intros [? _]. congruence.
Qed.

Lemma update_items_elem h ident q x rest :
  update_items h ident q = x :: rest → x ∈ q.
Proof.
  intros Hx. assert (x ∈ update_items h ident q) as Hin by (rewrite Hx; left).
  unfold update_items in Hin. by apply list_elem_of_filter in Hin as [_ ?].
Qed.

(** One [queue_update] that returns, on a key other than ['id'] and
    ['action'], from a queue with at most one pending update of the
    show's identity: afterwards there is one, it has the new value, and
    its other fields are those of the update that was pending or, when
    none was, the id, action and title of a new item. *)
Lemma queue_update_step show k v p d s' ident :
  deref (heap p) show !! "id" = Some ident →
  k ≠ "id" → k ≠ "action" →
  Forall (λ x, (x < length (heap p))%nat) (queue_of p d) →
  (length (update_items (heap p) ident (queue_of p d)) ≤ 1)%nat →
  queue_update show k v (p, d) = (s', Ok ()) →
  ∃ item,
    update_items (heap s'.1) ident (queue_of s'.1 s'.2) = [item]
    ∧ Forall (λ x, (x < length (heap s'.1))%nat) (queue_of s'.1 s'.2)
    ∧ deref (heap s'.1) show !! "id" = Some ident
    ∧ deref (heap s'.1) item !! k = Some v
    ∧ (∀ k', k' ≠ k →
         deref (heap s'.1) item !! k' =
           match update_items (heap p) ident (queue_of p d) with
           | x :: _ => deref (heap p) x !! k'
           | [] =>
               ({[ "id" := ident; "action" := VStr "update";
                   "title" := default VNone (deref (heap p) show !! "title") ]}
                  : dict) !! k'
           end)
    ∧ (∀ x, update_items (heap p) ident (queue_of p d) = [x] → item = x).
Proof.
  intros Hid Hkid Hkaction Halloc Hone.
  destruct (deref (heap p) show !! k) as [old|] eqn:Hkey;
    [|by rewrite queue_update_absent].
  rewrite (queue_update_unfold _ _ _ _ _ _ Hkey). cbv zeta.
  pose proof (deref_lookup_lt _ _ _ _ Hkey) as Hlt.
  set (h := heap p) in *. set (q := queue_of p d) in *.
  set (h1 := <[show:=<[k:=v]> (deref h show)]> h).
  assert (length h1 = length h) as Hlen1 by apply length_insert.
  assert (∀ y k', k' ≠ k → deref h1 y !! k' = deref h y !! k') as Hsame1.
  { intros y k' Hk'. unfold h1. rewrite deref_set_field by done.
    by rewrite decide_False by (by intros [_ ?]). }
  assert (update_items h1 ident q = update_items h ident q) as Hitems1.
  { apply update_items_ext. intros y _. by rewrite !Hsame1. }
  assert (deref h1 show !! "id" = Some ident) as Hid1 by by rewrite Hsame1.
  destruct (find_queued h1 show q) as [[x|]|e] eqn:Hfind; [| |done].
  - (* an update of the identity is pending: it gets the new value *)
    destruct (find_queued_Some _ _ _ _ _ Hid1 Hfind) as [tail Hx].
    pose proof (update_items_elem _ _ _ _ _ Hx) as Hxq.
    rewrite Hitems1 in Hx. rewrite Hx in Hone |- *.
    destruct tail as [|? ?]; [|simpl in Hone; lia].
    assert (x < length h1) as Hxlt.
    { rewrite Hlen1. by eapply Forall_forall in Halloc. }
    set (h2 := <[x:=<[k:=v]> (deref h1 x)]> h1).
    assert (∀ y k', k' ≠ k → deref h2 y !! k' = deref h y !! k') as Hsame2.
    { intros y k' Hk'. unfold h2. rewrite deref_set_field by done.
      rewrite decide_False by (by intros [_ ?]). by apply Hsame1. }
    intros [= <-]. rewrite queue_of_persisted, heap_persisted. cbn [fst snd heap set_heap].
    change (queue_of (set_heap h2 p) d) with q.
    exists x. split_and!.
    + rewrite <- Hx. apply update_items_ext. intros y _. by rewrite !Hsame2.
    + unfold h2. rewrite length_insert, Hlen1. done.
    + by rewrite Hsame2.
    + unfold h2. rewrite deref_set_field by done. by rewrite decide_True.
    + intros k' Hk'. by apply Hsame2.
    + by intros ? [= ->].
  - (* none is pending: a new item is appended *)
    pose proof (find_queued_None _ _ _ _ Hid1 Hfind) as Hnone.
    rewrite Hitems1 in Hnone. rewrite Hnone.
    rewrite Hid1.
    destruct (deref h1 show !! "title") as [title|] eqn:Htitle; [|done].
    intros [= <-].
    rewrite queue_of_persisted, heap_persisted, queue_of_with_queue, heap_with_queue.
    cbn [fst snd heap set_heap].
    set (item := <[k:=v]> _).
    assert (deref (h1 ++ [item]) (length h1) = item) as Hnew.
    { unfold deref. rewrite lookup_app_r by done. by rewrite Nat.sub_diag. }
    assert (∀ y, y ∈ q → deref (h1 ++ [item]) y = deref h1 y) as Hold.
    { intros y Hy. apply deref_app_l. rewrite Hlen1.
      by eapply Forall_forall in Halloc. }
    exists (length h1). split_and!.
    + unfold update_items. rewrite filter_app.
      fold (update_items (h1 ++ [item]) ident q).
      rewrite (update_items_ext _ h1) by (intros y Hy; by rewrite Hold).
      rewrite Hitems1, Hnone. simpl.
      rewrite filter_cons_True; [done|].
      unfold is_update_of. rewrite Hnew. unfold item.
      split.
      * rewrite lookup_insert_ne by done. apply lookup_insert_eq.
      * rewrite !lookup_insert_ne by done. apply lookup_insert_eq.
    + rewrite length_app. simpl. apply Forall_app. split.
      * eapply Forall_impl; [exact Halloc|]. simpl. intros. rewrite Hlen1. lia.
      * apply Forall_singleton. lia.
    + rewrite deref_app_l by (by rewrite Hlen1). done.
    + rewrite Hnew. apply lookup_insert_eq.
    + intros k' Hk'. rewrite Hnew. unfold item.
      rewrite lookup_insert_ne by done.
      destruct (decide (k' = "title")) as [->|Hk't].
      * rewrite <- (Hsame1 show "title") by done. rewrite Htitle. simpl.
        by rewrite !lookup_insert_ne, !lookup_singleton_eq by done.
      * destruct (decide (k' = "id")) as [->|Hk'id];
          [by rewrite !lookup_insert_eq|].
        rewrite !(lookup_insert_ne _ "id") by done.
        destruct (decide (k' = "action")) as [->|Hk'a];
          [by rewrite !lookup_insert_eq|].
        rewrite !(lookup_insert_ne _ "action") by done.
        by rewrite !lookup_singleton_ne.
    + done.
Qed.

(** C3 (amended). Two [queue_update] calls in a row that both return,
    for one show and two keys other than ['id'] and ['action'], on a queue
    with at most one pending update of the show's identity, leave exactly
    one pending update of that identity; it has the second value under
    the second key, the first value under the first key when the keys
    differ, and every other field as the update pending before the calls
    had it or, when none was pending, only the id, the action ['update']
    and the title. *)
Theorem two_updates_merge show k1 v1 k2 v2 p d s1 s2 ident :
  deref (heap p) show !! "id" = Some ident →
  k1 ≠ "id" → k1 ≠ "action" → k2 ≠ "id" → k2 ≠ "action" →
  Forall (λ x, (x < length (heap p))%nat) (queue_of p d) →
  (length (update_items (heap p) ident (queue_of p d)) ≤ 1)%nat →
  queue_update show k1 v1 (p, d) = (s1, Ok ()) →
  queue_update show k2 v2 s1 = (s2, Ok ()) →
  ∃ item,
    update_items (heap s2.1) ident (queue_of s2.1 s2.2) = [item]
    ∧ deref (heap s2.1) item !! k2 = Some v2
    ∧ (k1 ≠ k2 → deref (heap s2.1) item !! k1 = Some v1)
    ∧ (∀ k', k' ≠ k1 → k' ≠ k2 →
         deref (heap s2.1) item !! k' =
           match update_items (heap p) ident (queue_of p d) with
           | x :: _ => deref (heap p) x !! k'
           | [] =>
               ({[ "id" := ident; "action" := VStr "update";
                   "title" := default VNone (deref (heap p) show !! "title") ]}
                  : dict) !! k'
           end).
Proof.
  intros Hid Hk1id Hk1a Hk2id Hk2a Halloc Hone Hfirst Hsecond.
  destruct (queue_update_step _ _ _ _ _ _ _ Hid Hk1id Hk1a Halloc Hone Hfirst)
    as (item1 & Hitems1 & Halloc1 & Hid1 & Hv1 & Hrest1 & _).
  destruct s1 as [p1 d1]. cbn [fst snd] in *.
  assert (length (update_items (heap p1) ident (queue_of p1 d1)) ≤ 1)%nat as Hone1
    by by rewrite Hitems1.
  destruct (queue_update_step _ _ _ _ _ _ _ Hid1 Hk2id Hk2a Halloc1 Hone1 Hsecond)
    as (item2 & Hitems2 & _ & _ & Hv2 & Hrest2 & Hsame).
  rewrite Hitems1 in Hrest2. specialize (Hsame item1 Hitems1). subst item2.
  exists item1. split_and!; [done|done| |].
  - intros Hne. by rewrite Hrest2.
  - intros k' Hk'1 Hk'2. rewrite Hrest2 by done. by apply Hrest1.
Qed.

(** ** More on [start] *)

(** [start] on a held lock raises before it loads or fetches anything. *)
Theorem start_lock_held p d :
  is_Some (fs p !! lock_file d) →
  start (p, d) = ((p, d), Raise LockHeld).
Proof. intros Hheld. unfold start. by rewrite bind_run, _lock_held. Qed.

(** A [start] whose bootstrap fetch fails leaves the lock file behind: the
    next [start] of the handler raises the lock error and fetches nothing. *)
Theorem start_failed_fetch_keeps_lock p d msg :
  fs p !! lock_file d = None →
  fs p !! cache_file d = None →
  lock_file d ≠ cache_file d →
  (fetch_list (api d)).2 = ApiFail msg →
  let out := start (p, d) in
  out.2 = Raise (APIFatal msg)
  ∧ fs out.1.1 = <[lock_file d:=Marker]> (fs p)
  ∧ start out.1 = (out.1, Raise LockHeld).
Proof.
  intros Hlock Hcache Hne Hfail. cbv zeta.
  assert (start (p, d) =
    ((set_fs (<[lock_file d:=Marker]> (fs p)) p,
      set_api (fetch_list (api d)).1 FetchList d), Raise (APIFatal msg))) as ->.
  { unfold start. run. rewrite _lock_free by done. run.
    unfold _cache_exists. run.
    rewrite lookup_insert_ne, Hcache by done.
    rewrite bool_decide_eq_false_2 by (by intros [? ?]). run.
    unfold except_APIError, download_data. run. rewrite Hfail. by run. }
  cbn [fst snd fs set_fs]. split_and!; [done..|].
  apply start_lock_held. destruct d. cbn. rewrite lookup_insert_eq. eauto.
Qed.

(** The objects made for an unpickled queue hold its items. *)
Lemma alloc_all_contents (items h : list dict) :
  deref (h ++ items) <$> seq (length h) (length items) = items.
Proof.
  revert h. induction items as [|x rest IH]; intros h; [done|].
  cbn [length seq fmap list_fmap]. f_equal.
  - unfold deref. rewrite lookup_app_r by done. by rewrite Nat.sub_diag.
  - specialize (IH (h ++ [x])). rewrite length_app, <- app_assoc in IH.
    simpl in IH. by rewrite Nat.add_1_r in IH.
Qed.

(** The references of an unpickled show list are among the new objects. *)
Lemma alloc_map_range (ks : list value) (a n : nat) k l :
  (list_to_map (zip ks (seq a n)) : gmap value loc) !! k = Some l → a ≤ l < a + n.
Proof.
  intros Hl. apply elem_of_list_to_map_2 in Hl.
  apply elem_of_zip_r in Hl. by apply elem_of_seq in Hl.
Qed.

(** [start] on a free lock with a readable cache file and a readable queue
    file returns, without a call to the API object: the show list and the
    queue have the contents of the two files, the queue is a list of the
    handler's own, and no object of the show list is an object of the
    queue. *)
Theorem start_loads_files p d snap items :
  fs p !! lock_file d = None →
  fs p !! cache_file d = Some (PickledList (Some snap)) →
  fs p !! queue_file d = Some (PickledQueue items) →
  ∃ s',
    start (p, d) = (s', Ok (api_info (api d), media_info (api d)))
    ∧ showlist_view s'.1 s'.2 = Some snap
    ∧ queue_view s'.1 s'.2 = items
    ∧ calls s'.2 = calls d
    ∧ is_Some (queue s'.2)
    ∧ class_queue s'.1 = class_queue p
    ∧ fs s'.1 = <[lock_file d:=Marker]> (fs p)
    ∧ (∀ m ident l, showlist s'.2 = Some m → m !! ident = Some l →
         l ∉ queue_of s'.1 s'.2).
Proof.
  intros Hlock Hcache Hqueue.
  assert (lock_file d ≠ cache_file d) as Hlc by congruence.
  assert (lock_file d ≠ queue_file d) as Hlq by congruence.
  eexists. split.
  { unfold start. run. rewrite _lock_free by done. run.
    unfold _cache_exists. run.
    rewrite lookup_insert_ne, Hcache by done.
    rewrite bool_decide_eq_true_2 by eauto. run.
    unfold _load_cache. run.
    rewrite lookup_insert_ne, Hcache by done. run.
    unfold _queue_exists. run.
    rewrite lookup_insert_ne, Hqueue by done.
    rewrite bool_decide_eq_true_2 by eauto. run.
    unfold _load_queue. run.
    rewrite lookup_insert_ne, Hqueue by done. run. done. }
  cbn [fst snd]. unfold showlist_view, queue_view, queue_of.
  destruct d as [sl q qf cf lf r cs]. project. cbn [fmap option_fmap option_map default].
  split_and!; [| |done|by eauto|done|done|].
  - f_equal. rewrite alloc_map_contents. apply list_to_map_to_list.
  - apply alloc_all_contents.
  - intros m ident l [= <-] Hl Hin. apply alloc_map_range in Hl.
    apply elem_of_seq in Hin. rewrite length_app in Hin. lia.
Qed.

(** ** What the mutations leave on disk *)

Lemma persisted_files s :
  cache_file s.2 ≠ queue_file s.2 →
  fs (persisted s).1 !! queue_file s.2 = Some (PickledQueue (queue_view s.1 s.2))
  ∧ fs (persisted s).1 !! cache_file s.2 = Some (PickledList (showlist_view s.1 s.2)).
Proof.
  intros Hne. unfold persisted. cbn [fst snd fs set_fs]. split.
  - rewrite lookup_insert_ne by done. apply lookup_insert_eq.
  - apply lookup_insert_eq.
Qed.

(** A [queue_update] that returns has written both files last. *)
Lemma queue_update_ok_persisted show key v p d s' :
  queue_update show key v (p, d) = (s', Ok ()) →
  ∃ s0, s' = persisted s0 ∧ cache_file s0.2 = cache_file d
        ∧ queue_file s0.2 = queue_file d.
Proof.
  destruct (deref (heap p) show !! key) as [old|] eqn:Hkey;
    [|by rewrite queue_update_absent].
  rewrite (queue_update_unfold _ _ _ _ _ _ Hkey). cbv zeta.
  destruct (find_queued _ show (queue_of p d)) as [[x|]|e]; [| |done].
  - destruct (deref _ show !! "title"); [|done]. intros [= <-]. by eexists.
  - destruct (deref _ show !! "id"); [|done].
    destruct (deref _ show !! "title"); [|done]. intros [= <-].
    eexists. split; [done|]. by destruct d as [? [?|] ? ? ? ? ?].
Qed.

(** When [queue_add] or [queue_update] returns, the queue file holds the
    queue and the cache file holds the show list, as they are in memory
    at that moment. *)
Theorem mutations_are_saved show key v p d s' :
  cache_file d ≠ queue_file d →
  queue_add show (p, d) = (s', Ok ()) ∨ queue_update show key v (p, d) = (s', Ok ()) →
  fs s'.1 !! queue_file d = Some (PickledQueue (queue_view s'.1 s'.2))
  ∧ fs s'.1 !! cache_file d = Some (PickledList (showlist_view s'.1 s'.2)).
Proof.
  intros Hne [Hadd|Hupdate].
  - destruct (queue_add_ok _ _ _ _ Hadd) as (ident & m & _ & _ & ->).
    set (s0 := with_queue _ _).
    assert (cache_file s0.2 = cache_file d ∧ queue_file s0.2 = queue_file d)
      as [Hc Hq] by by destruct d as [? [?|] ? ? ? ? ?].
    rewrite <- Hc, <- Hq in *. exact (persisted_files s0 Hne).
  - destruct (queue_update_ok_persisted _ _ _ _ _ _ Hupdate) as (s0 & -> & Hc & Hq).
    rewrite <- Hc, <- Hq in *. exact (persisted_files s0 Hne).
Qed.

(** What [queue_add] or [queue_update] saved is what the next run loads:
    a handler of the same three files that starts once the lock file is
    gone, in any process, gets the show list and the queue the mutation
    left, and calls nothing. *)
Theorem restart_restores show key v p d s' p0 d0 :
  lock_file d ≠ cache_file d → lock_file d ≠ queue_file d →
  cache_file d ≠ queue_file d →
  queue_add show (p, d) = (s', Ok ()) ∨ queue_update show key v (p, d) = (s', Ok ()) →
  is_Some (showlist s'.2) →
  lock_file d0 = lock_file d → cache_file d0 = cache_file d →
  queue_file d0 = queue_file d →
  fs p0 = delete (lock_file d) (fs s'.1) →
  let out := start (p0, d0) in
  out.2 = Ok (api_info (api d0), media_info (api d0))
  ∧ showlist_view out.1.1 out.1.2 = showlist_view s'.1 s'.2
  ∧ queue_view out.1.1 out.1.2 = queue_view s'.1 s'.2
  ∧ calls out.1.2 = calls d0.
Proof.
  intros Hlc Hlq Hcq Hrun [m Hm] Hl0 Hc0 Hq0 Hfs. cbv zeta.
  destruct (mutations_are_saved _ key v _ _ _ Hcq Hrun) as [Hqueue Hcache].
  assert (showlist_view s'.1 s'.2 = Some (deref (heap s'.1) <$> m)) as Hview
    by (unfold showlist_view; by rewrite Hm).
  rewrite Hview in Hcache.
  destruct (start_loads_files p0 d0 (deref (heap s'.1) <$> m) (queue_view s'.1 s'.2))
    as (s1 & -> & Hlist1 & Hqueue1 & Hcalls1 & _).
  - rewrite Hfs, Hl0. apply lookup_delete_eq.
  - rewrite Hfs, Hc0. by rewrite lookup_delete_ne.
  - rewrite Hfs, Hq0. by rewrite lookup_delete_ne.
  - cbn [fst snd]. by rewrite Hview.
Qed.

(** ** More on [queue_add] *)

Lemma queue_add_ok_title show p d s' :
  queue_add show (p, d) = (s', Ok ()) →
  is_Some (deref (heap p) show !! "title").
Proof.
  intros Hadd.
  destruct (queue_add_ok _ _ _ _ Hadd) as (ident & m & Hid & Hm & _).
  pose proof (deref_lookup_lt _ _ _ _ Hid) as Hlt.
  revert Hadd. unfold queue_add, self_queue. run. rewrite Hid. run. rewrite Hm. run.
  destruct (match m !! ident with Some l => truthy (deref (heap p) l) | None => false end);
    run; [done|].
  rewrite check_add_queued_run.
  destruct (check_add_queued ident _ _).2; run; [|done].
  destruct d as [? [?|] ? ? ? ? ?]; cbn [with_queue queue fst snd set_queue
    set_class_queue set_showlist heap set_heap showlist];
    rewrite deref_insert_eq by done;
    rewrite lookup_insert_ne by done;
    by destruct (deref (heap p) show !! "title"); eauto.
Qed.

Lemma queue_add_shares_show_facts show p d s1 :
  queue_add show (p, d) = (s1, Ok ()) →
  ∃ ident m',
    deref (heap p) show !! "id" = Some ident
    ∧ deref (heap s1.1) show = <["action":=VStr "add"]> (deref (heap p) show)
    ∧ showlist s1.2 = Some m'
    ∧ m' !! ident = Some show.
Proof.
  intros Hadd.
  destruct (queue_add_ok _ _ _ _ Hadd) as (ident & m & Hid & Hm & ->).
  pose proof (deref_lookup_lt _ _ _ _ Hid) as Hlt.
  exists ident, (<[ident:=show]> m).
  rewrite heap_persisted, showlist_persisted, heap_with_queue, showlist_with_queue.
  cbn [fst snd heap set_heap showlist set_showlist].
  split_and!; [done|by apply deref_insert_eq|done|apply lookup_insert_eq].
Qed.

(** A show that [queue_add] has added is refused when it is added again,
    and the second call changes nothing. *)
Theorem queue_add_twice show p d s1 :
  queue_add show (p, d) = (s1, Ok ()) →
  queue_add show s1 = (s1, Raise DuplicateShow).
Proof.
  intros Hadd.
  destruct (queue_add_shares_show_facts show p d s1 Hadd) as (ident & m' & Hid & Hitem & Hm' & Hl).
  destruct s1 as [p1 d1]. cbn [fst snd] in *.
  apply (queue_add_duplicate_show show p1 d1 ident m' show); try done.
  - rewrite Hitem. by rewrite lookup_insert_ne.
  - rewrite Hitem. intros Hempty.
    assert ((<["action":=VStr "add"]> (deref (heap p) show) : dict) !! "action"
            = Some (VStr "add")) as Hact by apply lookup_insert_eq.
    rewrite Hempty in Hact. by rewrite lookup_empty in Hact.
Qed.

(** The checks of [queue_add]: a show without an id, and a handler that
    was not started, make it raise before anything is changed; a show
    without a title makes it raise only at its last line, when the show
    is in the show list and in the queue and both files are written. *)
Theorem queue_add_failures show p d :
  (deref (heap p) show !! "id" = None →
   queue_add show (p, d) = ((p, d), Raise (KeyError "id")))
  ∧ (is_Some (deref (heap p) show !! "id") → showlist d = None →
     queue_add show (p, d) = ((p, d), Raise AttributeError))
  ∧ (∀ ident m,
       deref (heap p) show !! "id" = Some ident →
       showlist d = Some m → m !! ident = None →
       queue_of p d = [] →
       deref (heap p) show !! "title" = None →
       ∃ s',
         queue_add show (p, d) = (s', Raise (KeyError "title"))
         ∧ queue_of s'.1 s'.2 = [show]
         ∧ showlist s'.2 = Some (<[ident:=show]> m)
         ∧ fs s'.1 =
             <[cache_file d:=PickledList (showlist_view s'.1 s'.2)]>
               (<[queue_file d:=PickledQueue (queue_view s'.1 s'.2)]> (fs p))).
Proof.
  split_and!.
  - intros Hid. unfold queue_add. run. by rewrite Hid.
  - intros [ident Hid] Hnone. unfold queue_add. run. rewrite Hid. run.
    by rewrite Hnone.
  - intros ident m Hid Hm Hfree Hq Htitle.
    pose proof (deref_lookup_lt _ _ _ _ Hid) as Hlt.
    eexists. split.
    { unfold queue_add, self_queue. run. rewrite Hid. run. rewrite Hm. run.
      rewrite Hfree. run.
      change (queue_of p (set_showlist (Some (<[ident:=show]> m)) d))
        with (queue_of p d).
      rewrite Hq. cbn [check_add_queued]. run.
      rewrite (heap_with_queue _ (_, _)). cbn [fst heap set_heap].
      rewrite deref_insert_eq by done.
      rewrite lookup_insert_ne, Htitle by done. done. }
    cbn [fst snd]. destruct p, d as [? [?|] ? ? ? ? ?];
      unfold queue_of in Hq; simpl in Hq; subst; done.
Qed.

(** ** Invariants of the queue *)

Lemma set_field_keeps_title (h : list dict) l k v y :
  is_Some (deref h y !! "title") →
  is_Some (deref (<[l:=<[k:=v]> (deref h l)]> h) y !! "title").
Proof.
  intros Htitle. destruct (decide (l < length h)) as [Hl|Hl].
  - rewrite deref_set_field by done. case_decide; eauto.
  - by rewrite list_insert_ge by lia.
Qed.

(** Every item of the queue has a title: [queue_update] keeps it so,
    however it ends. *)
Theorem queue_update_keeps_titles show key v p d :
  Forall (λ x, is_Some (deref (heap p) x !! "title")) (queue_of p d) →
  let s' := (queue_update show key v (p, d)).1 in
  Forall (λ x, is_Some (deref (heap s'.1) x !! "title")) (queue_of s'.1 s'.2).
Proof.
  intros Htitles. cbv zeta.
  destruct (deref (heap p) show !! key) as [old|] eqn:Hkey;
    [|by rewrite queue_update_absent].
  rewrite (queue_update_unfold _ _ _ _ _ _ Hkey). cbv zeta.
  set (h1 := <[show:=<[key:=v]> (deref (heap p) show)]> (heap p)).
  assert (Forall (λ x, is_Some (deref h1 x !! "title")) (queue_of p d)) as Htitles1.
  { eapply Forall_impl; [exact Htitles|]. intros x Hx. by apply set_field_keeps_title. }
  destruct (find_queued h1 show (queue_of p d)) as [[x|]|e].
  - cbn [fst snd]. rewrite queue_of_persisted, heap_persisted. cbn [fst snd heap set_heap].
    change (queue_of (set_heap _ p) d) with (queue_of p d).
    eapply Forall_impl; [exact Htitles1|]. intros y Hy. by apply set_field_keeps_title.
  - destruct (deref h1 show !! "id") as [sid|]; [|done].
    destruct (deref h1 show !! "title") as [title|] eqn:Htitle; [|done].
    cbn [fst snd].
    rewrite queue_of_persisted, heap_persisted, queue_of_with_queue, heap_with_queue.
    cbn [fst snd heap set_heap]. apply Forall_app. split.
    + eapply Forall_impl; [exact Htitles1|]. intros y [t Hy].
      rewrite deref_app_l by by eapply deref_lookup_lt. eauto.
    + apply Forall_singleton. unfold deref.
      rewrite lookup_app_r, Nat.sub_diag by done. simpl.
      destruct (decide (key = "title")) as [->|Hk].
      * rewrite lookup_insert_eq. eauto.
      * rewrite !lookup_insert_ne, lookup_singleton_eq by done. eauto.
  - done.
Qed.

(** Every item of the queue has a title: a [queue_add] that returns
    keeps it so. *)
Theorem queue_add_keeps_titles show p d s' :
  Forall (λ x, is_Some (deref (heap p) x !! "title")) (queue_of p d) →
  queue_add show (p, d) = (s', Ok ()) →
  Forall (λ x, is_Some (deref (heap s'.1) x !! "title")) (queue_of s'.1 s'.2).
Proof.
  intros Htitles Hadd.
  pose proof (queue_add_ok_title _ _ _ _ Hadd) as Htitle.
  destruct (queue_add_ok _ _ _ _ Hadd) as (ident & m & Hid & Hm & ->).
  rewrite queue_of_persisted, heap_persisted, queue_of_with_queue, heap_with_queue.
  cbn [fst snd heap set_heap]. apply Forall_app. split.
  - eapply Forall_impl; [exact Htitles|]. intros y Hy. by apply set_field_keeps_title.
  - apply Forall_singleton. by apply set_field_keeps_title.
Qed.

(** A [queue_update] of a show leaves the pending updates of the other
    identities as they are. *)
Lemma queue_update_other_identity show k v p d s' ident ident' :
  deref (heap p) show !! "id" = Some ident →
  k ≠ "id" → k ≠ "action" →
  Forall (λ x, (x < length (heap p))%nat) (queue_of p d) →
  ident' ≠ ident →
  queue_update show k v (p, d) = (s', Ok ()) →
  update_items (heap s'.1) ident' (queue_of s'.1 s'.2)
  = update_items (heap p) ident' (queue_of p d).
Proof.
  intros Hid Hkid Hkaction Halloc Hother.
  destruct (deref (heap p) show !! k) as [old|] eqn:Hkey;
    [|by rewrite queue_update_absent].
  rewrite (queue_update_unfold _ _ _ _ _ _ Hkey). cbv zeta.
  pose proof (deref_lookup_lt _ _ _ _ Hkey) as Hlt.
  set (h := heap p) in *. set (q := queue_of p d) in *.
  set (h1 := <[show:=<[k:=v]> (deref h show)]> h).
  assert (length h1 = length h) as Hlen1 by apply length_insert.
  assert (∀ y k', k' ≠ k → deref h1 y !! k' = deref h y !! k') as Hsame1.
  { intros y k' Hk'. unfold h1. rewrite deref_set_field by done.
    by rewrite decide_False by (by intros [_ ?]). }
  assert (update_items h1 ident' q = update_items h ident' q) as Hitems1.
  { apply update_items_ext. intros y _. by rewrite !Hsame1. }
  assert (deref h1 show !! "id" = Some ident) as Hid1 by by rewrite Hsame1.
  destruct (find_queued h1 show q) as [[x|]|e] eqn:Hfind; [| |done].
  - destruct (deref _ show !! "title"); [|done]. intros [= <-].
    rewrite queue_of_persisted, heap_persisted. cbn [fst snd heap set_heap].
    change (queue_of (set_heap _ p) d) with q.
    rewrite <- Hitems1. apply update_items_ext. intros y _.
    destruct (decide (x < length h1)) as [Hx|Hx].
    + rewrite !deref_set_field by done.
      by rewrite !decide_False by (by intros [_ ?]).
    + by rewrite list_insert_ge by lia.
  - rewrite Hid1.
    destruct (deref h1 show !! "title") as [title|] eqn:Htitle; [|done].
    intros [= <-].
    rewrite queue_of_persisted, heap_persisted, queue_of_with_queue, heap_with_queue.
    cbn [fst snd heap set_heap].
    set (item := <[k:=v]> _).
    unfold update_items. rewrite filter_app.
    fold (update_items (h1 ++ [item]) ident' q).
    rewrite (update_items_ext _ h1).
    2:{ intros y Hy. rewrite deref_app_l; [done|]. rewrite Hlen1.
        by eapply Forall_forall in Halloc. }
    rewrite Hitems1. rewrite filter_cons_False; [by rewrite app_nil_r|].
    intros [Hident _]. unfold deref in Hident.
    rewrite lookup_app_r, Nat.sub_diag in Hident by done. simpl in Hident.
    unfold item in Hident.
    rewrite lookup_insert_ne, lookup_insert_eq in Hident by done. congruence.
Qed.

(** At most one update is pending for every identity: a [queue_update]
    that returns, on a key other than ['id'] and ['action'], keeps it so. *)
Theorem queue_update_keeps_single_update show k v p d s' :
  is_Some (deref (heap p) show !! "id") →
  k ≠ "id" → k ≠ "action" →
  Forall (λ x, (x < length (heap p))%nat) (queue_of p d) →
  (∀ ident, (length (update_items (heap p) ident (queue_of p d)) ≤ 1)%nat) →
  queue_update show k v (p, d) = (s', Ok ()) →
  ∀ ident, (length (update_items (heap s'.1) ident (queue_of s'.1 s'.2)) ≤ 1)%nat.
Proof.
  intros [sid Hid] Hkid Hkaction Halloc Hone Hrun ident.
  destruct (decide (ident = sid)) as [->|Hother].
  - destruct (queue_update_step _ _ _ _ _ _ _ Hid Hkid Hkaction Halloc (Hone sid) Hrun)
      as (item & -> & _). simpl. lia.
  - rewrite (queue_update_other_identity _ _ _ _ _ _ _ _ Hid Hkid Hkaction Halloc
               Hother Hrun). apply Hone.
Qed.

(** ** More on the drain *)

Lemma failed_of_none items vs :
  Failed ∉ vs → failed_of items vs = [].
Proof.
  revert vs. induction items as [|x rest IH]; intros [|v vs] Hvs; try done.
  cbn [failed_of]. rewrite decide_False.
  - apply IH. intros Hin. apply Hvs. by right.
  - intros ->. apply Hvs. left.
Qed.

Lemma failed_of_all items vs :
  length vs = length items → Forall (λ v, v = Failed) vs → failed_of items vs = items.
Proof.
  revert vs. induction items as [|x rest IH]; intros [|v vs] Hlen Hvs; try done.
  apply Forall_cons in Hvs as [-> Hvs]. cbn [failed_of].
  rewrite decide_True by done. f_equal. apply IH; [|done]. simpl in Hlen. lia.
Qed.

(** A drain in which no call fails empties the queue and writes the empty
    queue to the queue file; a drain in which every item's call fails
    leaves the queue as it was, in the same order, and writes it. *)
Theorem process_queue_all_or_nothing p d :
  queue_of p d ≠ [] →
  Forall (λ x, is_Some (deref (heap p) x !! "title")) (queue_of p d) →
  let items := queue_of p d in
  let vs := (attempts (heap p) (api d) items).1 in
  let out := process_queue (p, d) in
  (Failed ∉ vs →
   out.2 = Ok () ∧ queue_of out.1.1 out.1.2 = []
   ∧ fs out.1.1 !! queue_file d = Some (PickledQueue []))
  ∧ (Forall (λ v, v = Failed) vs →
     out.2 = Ok () ∧ queue_of out.1.1 out.1.2 = items
     ∧ fs out.1.1 !! queue_file d = Some (PickledQueue (queue_view p d))).
Proof.
  intros Hne Htitles. cbv zeta.
  rewrite (process_queue_run p d Hne Htitles). cbv zeta. cbn [fst snd fs set_fs].
  rewrite lookup_insert_eq. unfold queue_view.
  rewrite !queue_of_with_queue, !heap_with_queue. cbn [fst heap].
  split.
  - intros Hnone. rewrite failed_of_none by done.
    split_and!; [done|apply queue_of_with_queue|done].
  - intros Hall. rewrite failed_of_all by (done || apply attempts_length).
    split_and!; [done|apply queue_of_with_queue|done].
Qed.

(** A failed call for an item that has no title: the exception handler
    raises [KeyError] when it builds its warning, so [process_queue] and
    [unload] stop there; the item is off the queue in memory, the queue
    file is not written, and the lock file stays. *)
Theorem process_queue_untitled_failure p d x rest c f msg :
  queue_of p d = x :: rest →
  request (deref (heap p) x) = Some (c, f) →
  (f (api d) (deref (heap p) x)).2 = ApiFail msg →
  deref (heap p) x !! "title" = None →
  ∃ s',
    process_queue (p, d) = (s', Raise (KeyError "title"))
    ∧ unload (p, d) = (s', Raise (KeyError "title"))
    ∧ queue_of s'.1 s'.2 = rest
    ∧ calls s'.2 = calls d ++ [c x]
    ∧ fs s'.1 = fs p.
Proof.
  intros Hq Hreq Hfail Htitle.
  assert (process_item (p, d) =
    (with_queue rest (p, set_api (f (api d) (deref (heap p) x)).1 (c x) d),
     Raise (KeyError "title"))) as Hitem.
  { unfold process_item, queue_pop0, self_queue. run. rewrite Hq. run.
    unfold except_APIError. rewrite bind_run, load_run. cbv iota beta.
    rewrite (heap_with_queue rest (p, d)). cbn [fst].
    assert (∀ c' f', c' = c → f' = f →
      match call_api c' f' x (with_queue rest (p, d)) with
      | (s', Raise (APIError msg0)) =>
          (d0 ← load x; _ ← getitem d0 "title"; queue_append x) s'
      | r => r
      end =
      (with_queue rest (p, set_api (f (api d) (deref (heap p) x)).1 (c x) d),
       Raise (KeyError "title"))) as Hcall.
    { intros c' f' -> ->.
      destruct p as [h cq f0], d as [sl [q0|] qf cf lf r cs];
        cbn [with_queue queue fst snd set_queue set_class_queue heap class_queue fs
             showlist queue_file cache_file lock_file api calls] in *;
        rewrite call_api_run; project; rewrite Hfail; run; rewrite Htitle; done. }
    revert Hreq. unfold request.
    destruct (deref (heap p) x !! "action") as [a|]; simpl; [|done].
    destruct (decide (a = VStr "add")); [intros [= <- <-]; by apply Hcall|].
    destruct (decide (a = VStr "update")); [intros [= <- <-]; by apply Hcall|].
    destruct (decide (a = VStr "delete")); [intros [= <- <-]; by apply Hcall|].
    done. }
  assert (process_queue (p, d) =
    (with_queue rest (p, set_api (f (api d) (deref (heap p) x)).1 (c x) d),
     Raise (KeyError "title"))) as Hrun.
  { unfold process_queue, self_queue. run. rewrite Hq.
    cbn [length for_range]. rewrite decide_True by done. run.
    by rewrite Hitem. }
  eexists. split; [exact Hrun|]. split.
  { unfold unload. by rewrite bind_run, Hrun. }
  cbn [fst snd]. split_and!.
  - apply queue_of_with_queue.
  - by destruct d as [? [?|] ? ? ? ? ?].
  - by destruct p, d as [? [?|] ? ? ? ? ?].
Qed.

(** ** More on [queue_clear] and [download_data] *)

(** [queue_clear] gives the handler an empty list of its own: a second
    [queue_clear] raises, and the list of the class is not emptied, also
    when it was the list the handler was using. *)
Theorem queue_clear_own_list p d :
  queue_of p d ≠ [] →
  let out := queue_clear (p, d) in
  queue_clear out.1 = (out.1, Raise EmptyQueue)
  ∧ queue out.1.2 = Some []
  ∧ class_queue out.1.1 = class_queue p.
Proof.
  intros Hne. cbv zeta.
  destruct (queue_clear_spec p d) as [_ Hclear].
  assert (queue_clear (p, d) =
    ((set_fs (<[queue_file d:=PickledQueue []]> (fs p)) p, set_queue (Some []) d),
     Ok ())) as ->.
  { unfold queue_clear, self_queue. run.
    destruct (decide (length (queue_of p d) = 0)) as [Hlen|_].
    { by apply length_zero_iff_nil in Hlen. }
    by run. }
  cbn [fst snd]. split_and!; [|done|done].
  unfold queue_clear, self_queue. by run.
Qed.

(** [download_data] puts the fetched list in place of the show list and
    does nothing else: no file is written, the queue and the objects
    there were are untouched; when the fetch fails the [APIError] goes to
    the caller and the show list stays. *)
Theorem download_data_overwrites p d :
  let out := download_data (p, d) in
  calls out.1.2 = calls d ++ [FetchList]
  ∧ fs out.1.1 = fs p
  ∧ queue_of out.1.1 out.1.2 = queue_of p d
  ∧ (∀ l, l < length (heap p) → deref (heap out.1.1) l = deref (heap p) l)
  ∧ match (fetch_list (api d)).2 with
    | ApiOk m => out.2 = Ok () ∧ showlist_view out.1.1 out.1.2 = Some m
    | ApiFail msg =>
        out.2 = Raise (APIError msg) ∧ showlist out.1.2 = showlist d
        ∧ heap out.1.1 = heap p
    end.
Proof.
  cbv zeta. unfold download_data. run.
  destruct (fetch_list (api d)).2 as [m|msg]; run.
  - destruct d as [sl q qf cf lf r cs]. project.
    split_and!; [done|done|done| |done|].
    + intros l Hl. by apply deref_app_l.
    + unfold showlist_view. simpl. f_equal.
      rewrite <- (app_nil_r (heap p ++ _)).
      rewrite alloc_map_contents. apply list_to_map_to_list.
  - by destruct d.
Qed.

(** ** One pending add for an identity *)

Lemma check_add_queued_ok ident q s :
  (check_add_queued ident q s).2 = Ok () →
  add_items (heap s.1) ident q = [].
Proof.
  unfold add_items. induction q as [|y rest IH]; [done|].
  cbn [check_add_queued]. run.
  destruct (deref (heap s.1) y !! "id") as [qid|] eqn:Hqid; run; [|done].
  destruct (decide (qid = ident)) as [->|Hne].
  - run. destruct (deref (heap s.1) y !! "action") as [a|] eqn:Haction; run; [|done].
    destruct (decide (a = VStr "add")) as [->|Ha]; [done|].
    intros Hrest. rewrite filter_cons_False; [by apply IH|].
    intros [_ ?]. congruence.
  - intros Hrest. rewrite filter_cons_False; [by apply IH|].
    intros [? _]. congruence.
Qed.

Lemma add_items_ext (h h' : list dict) ident q :
  (∀ y, y ∈ q → deref h y = deref h' y) →
  add_items h ident q = add_items h' ident q.
Proof.
  unfold add_items. induction q as [|y rest IH]; intros Hsame; [done|].
  rewrite !filter_cons.
  pose proof (Hsame y ltac:(left)) as Hy.
  rewrite IH by (intros z Hz; apply Hsame; by right).
  destruct (decide (is_add_of h ident y)) as [Ha|Ha],
    (decide (is_add_of h' ident y)) as [Ha'|Ha']; try done;
    unfold is_add_of in *; rewrite Hy in Ha; done.
Qed.

(** At most one add is pending for every identity: a [queue_add] that
    returns, of a show that is not itself an item of the queue, keeps it
    so. *)
Theorem queue_add_keeps_single_add show p d s' :
  show ∉ queue_of p d →
  (∀ ident, (length (add_items (heap p) ident (queue_of p d)) ≤ 1)%nat) →
  queue_add show (p, d) = (s', Ok ()) →
  ∀ ident, (length (add_items (heap s'.1) ident (queue_of s'.1 s'.2)) ≤ 1)%nat.
Proof.
  intros Hfresh Hone Hadd ident.
  assert (∃ sid, deref (heap p) show !! "id" = Some sid
                 ∧ add_items (heap p) sid (queue_of p d) = []) as (sid & Hid & Hnone).
  { revert Hadd. unfold queue_add, self_queue. run.
    destruct (deref (heap p) show !! "id") as [sid|]; run; [|done].
    destruct (showlist d) as [m|]; run; [|done].
    destruct (match m !! sid with Some l => truthy (deref (heap p) l) | None => false end);
      run; [done|].
    rewrite check_add_queued_run.
    destruct (check_add_queued sid _ _).2 as [[]|] eqn:Hcheck; run; [|done].
    intros _. exists sid. split; [done|].
    by apply check_add_queued_ok in Hcheck. }
  destruct (queue_add_ok _ _ _ _ Hadd) as (sid' & m & Hid' & Hm & ->).
  assert (sid' = sid) as -> by congruence.
  rewrite queue_of_persisted, heap_persisted, queue_of_with_queue, heap_with_queue.
  cbn [fst snd heap set_heap].
  unfold add_items. rewrite filter_app.
  assert (filter (is_add_of (<[show:=<["action":=VStr "add"]> (deref (heap p) show)]>
                               (heap p)) ident) (queue_of p d)
          = add_items (heap p) ident (queue_of p d)) as ->.
  { apply add_items_ext. intros y Hy. apply deref_insert_ne. by intros ->. }
  rewrite length_app.
  destruct (decide (ident = sid)) as [->|Hother].
  - rewrite Hnone. simpl. etrans; [apply length_filter|]. simpl. lia.
  - rewrite filter_cons_False.
    + specialize (Hone ident). simpl. lia.
    + intros [Hident _]. pose proof (deref_lookup_lt _ _ _ _ Hid) as Hlt.
      rewrite deref_insert_eq in Hident by done.
      rewrite lookup_insert_ne in Hident by done. congruence.
Qed.

End properties.

(** * Concrete runs *)

(** The paths of a handler are three different files. *)
Lemma init_paths_distinct {R} libbase mediatype (r : R) :
  lock_file (init libbase mediatype r) ≠ cache_file (init libbase mediatype r)
  ∧ lock_file (init libbase mediatype r) ≠ queue_file (init libbase mediatype r)
  ∧ cache_file (init libbase mediatype r) ≠ queue_file (init libbase mediatype r).
Proof.
  unfold init, get_filename; cbn [lock_file cache_file queue_file].
  split_and!; intros Heq; repeat apply String.app_inj in Heq.
  - revert Heq. destruct mediatype as [|? [|? [|? [|? [|? ?]]]]];
      cbv [String.append]; intros; simplify_eq.
  - revert Heq. destruct mediatype as [|? [|? [|? [|? [|? ?]]]]];
      cbv [String.append]; intros; simplify_eq.
  - done.
Qed.

(** ** The lock *)

Lemma lock_round_trip_witness :
  fs (fresh_proc ∅) !! lock_file (mal quiet) = None
  ∧ (_lock (fresh_proc ∅, mal quiet)).2 = Ok ()
  ∧ _unlock (_lock (fresh_proc ∅, mal quiet)).1 = ((fresh_proc ∅, mal quiet), Ok ()).
Proof.
  assert (fs (fresh_proc ∅) !! lock_file (mal quiet) = None) as Hfree
    by (vm_compute; reflexivity).
  destruct (lock_round_trip (fresh_proc ∅) (mal quiet)) as (_ & _ & Hfresh).
  destruct (Hfresh Hfree) as [Hlock Hunlock].
  split; [exact Hfree|]. split; [|exact Hunlock].
  rewrite Hlock. reflexivity.
Defined.

(** ** Updates *)

Lemma queue_update_invalid_key_witness :
  is_Some (deref (heap listed.1) 0 !! "score")
  ∧ deref (heap (queue_update 0 "score" (VInt 5) listed).1.1) 0
    = <["score":=VInt 5]> show_scored
  ∧ (queue_update 0 "rating" (VInt 5) listed).2 = Raise InvalidKey.
Proof.
  assert (is_Some (deref (heap listed.1) 0 !! "score")) as Hkey
    by (vm_compute; eauto).
  destruct (queue_update_invalid_key 0 "score" (VInt 5) listed.1 listed.2)
    as (_ & _ & Hpresent).
  destruct (Hpresent Hkey) as (Hshow & _ & _).
  destruct (queue_update_invalid_key 0 "rating" (VInt 5) listed.1 listed.2)
    as (Hinvalid & _ & _).
  split; [exact Hkey|]. split.
  - exact Hshow.
  - apply Hinvalid. vm_compute. reflexivity.
Defined.

Lemma two_updates_merge_witness :
  queue_update 0 "score" (VInt 5) listed
    = ((queue_update 0 "score" (VInt 5) listed).1, Ok ())
  ∧ queue_update 0 "title" (VStr "Y") (queue_update 0 "score" (VInt 5) listed).1
    = ((queue_update 0 "title" (VStr "Y")
          (queue_update 0 "score" (VInt 5) listed).1).1, Ok ())
  ∧ ∃ item,
      let s2 := (queue_update 0 "title" (VStr "Y")
                   (queue_update 0 "score" (VInt 5) listed).1).1 in
      update_items (heap s2.1) (VInt 1) (queue_of s2.1 s2.2) = [item]
      ∧ deref (heap s2.1) item !! "title" = Some (VStr "Y")
      ∧ deref (heap s2.1) item !! "score" = Some (VInt 5).
Proof.
  assert (queue_update 0 "score" (VInt 5) (listed.1, listed.2)
    = ((queue_update 0 "score" (VInt 5) listed).1, Ok ())) as Hfirst
    by (vm_compute; reflexivity).
  assert (queue_update 0 "title" (VStr "Y") (queue_update 0 "score" (VInt 5) listed).1
    = ((queue_update 0 "title" (VStr "Y")
          (queue_update 0 "score" (VInt 5) listed).1).1, Ok ())) as Hsecond
    by (vm_compute; reflexivity).
  split; [exact Hfirst|]. split; [exact Hsecond|].
  destruct (two_updates_merge 0 "score" (VInt 5) "title" (VStr "Y")
              listed.1 listed.2
              (queue_update 0 "score" (VInt 5) listed).1
              (queue_update 0 "title" (VStr "Y")
                 (queue_update 0 "score" (VInt 5) listed).1).1
              (VInt 1)) as (item & Hitems & Htitle & Hscore & _);
    [vm_compute; reflexivity|done|done|done|done| | |exact Hfirst|exact Hsecond|].
  - vm_compute. constructor.
  - vm_compute. lia.
  - exists item. cbv zeta. split_and!; [exact Hitems|exact Htitle|by apply Hscore].
Defined.

(** An update of the id after an update of the score leaves two pending
    updates, one under each id, and neither has both changes; an update of
    the action field of a show whose title update is pending takes the
    action ['update'] away from the pending item, so that no pending
    update of the show is left. *)
Lemma two_updates_not_merged :
  renumbered.2 = Ok ()
  ∧ (¬ ∃ ident item,
       update_items (heap renumbered.1.1) ident
         (queue_of renumbered.1.1 renumbered.1.2) = [item]
       ∧ deref (heap renumbered.1.1) item !! "score" = Some (VInt 5)
       ∧ deref (heap renumbered.1.1) item !! "id" = Some (VInt 7))
  ∧ retagged.2 = Ok ()
  ∧ update_items (heap retagged.1.1) (VInt 1)
      (queue_of retagged.1.1 retagged.1.2) = [].
Proof.
  split_and!.
  - vm_compute. reflexivity.
  - intros (ident & item & Hitems & Hscore & Hid).
    pose proof (update_items_elem _ _ _ _ _ Hitems) as Hin.
    assert (queue_of renumbered.1.1 renumbered.1.2 = [1; 2]) as Hq
      by (vm_compute; reflexivity).
    rewrite Hq in Hin.
    apply elem_of_cons in Hin as [->|Hin].
    { vm_compute in Hid. discriminate Hid. }
    apply elem_of_cons in Hin as [->|Hin].
    { vm_compute in Hscore. discriminate Hscore. }
    by apply elem_of_nil in Hin.
  - vm_compute. reflexivity.
  - vm_compute. reflexivity.
Qed.

(** ** Adding a show *)

Lemma queue_add_shares_show_witness :
  queue_add 0 ready = ((queue_add 0 ready).1, Ok ())
  ∧ queue_of (queue_add 0 ready).1.1 (queue_add 0 ready).1.2 = [0]
  ∧ deref (heap (queue_add 0 ready).1.1) 0 = <["action":=VStr "add"]> show_X
  ∧ deref (heap (queue_update 0 "title" (VStr "Y") (queue_add 0 ready).1).1.1) 0
      !! "title" = Some (VStr "Y").
Proof.
  assert (queue_add 0 (ready.1, ready.2) = ((queue_add 0 ready).1, Ok ())) as Hadd
    by (vm_compute; reflexivity).
  destruct (queue_add_shares_show 0 ready.1 ready.2 _ Hadd)
    as (Hqueue & _ & Hitem & _ & _ & Hupdate).
  split; [exact Hadd|]. split; [exact Hqueue|]. split; [exact Hitem|].
  apply (Hupdate "title" (VStr "Y")). vm_compute. eauto.
Defined.

(** C2. The state before and after a [queue_add] that finds the add of
    the same id in the queue: the call raises the duplicate-item
    [DataError] and the queue is as it was, but the show list, empty
    before the call, has the show after it. *)
Theorem queue_add_duplicate_queue_item_changes_showlist :
  showlist_view restarted.1 restarted.2 = Some ∅
  ∧ queue_view restarted.1 restarted.2 = [<["action":=VStr "add"]> show_X]
  ∧ (queue_add 1 restarted).2 = Raise DuplicateQueueItem
  ∧ showlist_view (queue_add 1 restarted).1.1 (queue_add 1 restarted).1.2
    = Some {[ VInt 1 := show_X ]}
  ∧ queue_view (queue_add 1 restarted).1.1 (queue_add 1 restarted).1.2
    = queue_view restarted.1 restarted.2.
Proof. split_and!; vm_compute; reflexivity. Qed.

(** ** Clearing the queue *)

Lemma queue_clear_spec_witness :
  queue_of three_queued.1 three_queued.2 ≠ []
  ∧ (queue_clear three_queued).2 = Ok ()
  ∧ queue_of (queue_clear three_queued).1.1 (queue_clear three_queued).1.2 = []
  ∧ fs (queue_clear three_queued).1.1 !! queue_file three_queued.2
    = Some (PickledQueue []).
Proof.
  assert (queue_of three_queued.1 three_queued.2 ≠ []) as Hitems
    by (vm_compute; discriminate).
  destruct (queue_clear_spec three_queued.1 three_queued.2) as [_ Hclear].
  destruct (Hclear Hitems) as (p' & d' & Hrun & Hqueue & Hfs & _).
  change (three_queued.1, three_queued.2) with three_queued in Hrun.
  rewrite Hrun. cbn [fst snd]. split; [exact Hitems|].
  split; [reflexivity|]. split; [exact Hqueue|].
  rewrite Hfs. apply lookup_insert_eq.
Defined.

(** ** Starting *)

Lemma start_cache_or_fetch_witness :
  fs (fresh_proc ∅) !! lock_file (mal listing) = None
  ∧ fs (fresh_proc ∅) !! cache_file (mal listing) = None
  ∧ calls (start (fresh_proc ∅, mal listing)).1.2 = [FetchList]
  ∧ showlist_view (start (fresh_proc ∅, mal listing)).1.1
      (start (fresh_proc ∅, mal listing)).1.2
    = Some {[ VInt 1 := show_scored ]}
  ∧ fs (start (fresh_proc ∅, mal listing)).1.1 !! cache_file (mal listing)
    = Some (PickledList (Some {[ VInt 1 := show_scored ]})).
Proof.
  assert (fs (fresh_proc ∅) !! lock_file (mal listing) = None) as Hlock
    by (vm_compute; reflexivity).
  assert (fs (fresh_proc ∅) !! cache_file (mal listing) = None) as Hcache
    by (vm_compute; reflexivity).
  destruct (start_cache_or_fetch (fresh_proc ∅) (mal listing) Hlock)
    as (_ & _ & Hfetch).
  destruct (Hfetch Hcache (proj1 (init_paths_distinct "mal" "anime" listing)))
    as [Hcalls [Hlist Hfile]].
  split; [exact Hlock|]. split; [exact Hcache|].
  split; [exact Hcalls|]. split; [exact Hlist|exact Hfile].
Defined.

(** C5. A handler made in a process in which another handler has queued
    an add: its directory has no queue file, [start] returns, and its
    queue is not empty, it has the other handler's item; the first
    handler of the process starts with an empty queue. *)
Theorem second_handler_queue_not_empty :
  queue_of (start (fresh_proc ∅, mal quiet)).1.1
    (start (fresh_proc ∅, mal quiet)).1.2 = []
  ∧ fs after_first_run.1 !! queue_file (melative quiet) = None
  ∧ showlist (melative quiet) = None ∧ queue (melative quiet) = None
  ∧ (start (after_first_run.1, melative quiet)).2 = Ok ("script", "anime")
  ∧ queue_view (start (after_first_run.1, melative quiet)).1.1
      (start (after_first_run.1, melative quiet)).1.2
    = [<["action":=VStr "add"]> show_X].
Proof. split_and!; vm_compute; reflexivity. Qed.

(** ** Draining the queue *)

Lemma three_queued_titled :
  Forall (λ x, is_Some (deref (heap three_queued.1) x !! "title"))
    (queue_of three_queued.1 three_queued.2).
Proof. vm_compute. repeat constructor; eauto. Defined.

Lemma process_queue_one_pass_witness :
  queue_of three_queued.1 three_queued.2 ≠ []
  ∧ Forall (λ x, is_Some (deref (heap three_queued.1) x !! "title"))
      (queue_of three_queued.1 three_queued.2)
  ∧ (process_queue three_queued).2 = Ok ()
  ∧ calls (process_queue three_queued).1.2 = [AddShow 0; UpdateShow 1; DeleteShow 2]
  ∧ queue_of (process_queue three_queued).1.1 (process_queue three_queued).1.2 = [1]
  ∧ fs (process_queue three_queued).1.1 !! queue_file three_queued.2
    = Some (PickledQueue
              [ {[ "id" := VInt 2; "title" := VStr "B"; "action" := VStr "update" ]} ]).
Proof.
  assert (queue_of three_queued.1 three_queued.2 ≠ []) as Hitems
    by (vm_compute; discriminate).
  destruct (process_queue_one_pass three_queued.1 three_queued.2 Hitems
              three_queued_titled)
    as (s' & Hrun & _ & Hcalls & _ & _ & Hqueue & _ & Hfs & _).
  change (three_queued.1, three_queued.2) with three_queued in Hrun.
  rewrite Hrun. cbn [fst snd].
  split; [exact Hitems|]. split; [exact three_queued_titled|].
  split; [reflexivity|]. split; [exact Hcalls|]. split; [exact Hqueue|].
  rewrite Hfs. apply lookup_insert_eq.
Defined.

(** After the action field of the added show is set to a word that is no
    action, the queue has two items, the show and the update, and the
    drain calls the remote service for neither: it drops both. *)
Lemma drain_drops_unknown_action :
  queue_of relabelled.1 relabelled.2 = [0; 1]
  ∧ (process_queue relabelled).2 = Ok ()
  ∧ calls (process_queue relabelled).1.2 = calls relabelled.2
  ∧ queue_of (process_queue relabelled).1.1 (process_queue relabelled).1.2 = []
  ∧ ¬ (∀ x, x ∈ queue_of relabelled.1 relabelled.2 →
         dispatches (calls (process_queue relabelled).1.2) x = 1).
Proof.
  split_and!; try (vm_compute; reflexivity).
  intros Hall. specialize (Hall 0).
  assert (0 ∈ queue_of relabelled.1 relabelled.2) as Hin by (vm_compute; left).
  specialize (Hall Hin). vm_compute in Hall. discriminate Hall.
Qed.

Lemma unload_releases_lock_witness :
  Forall (λ x, is_Some (deref (heap three_queued.1) x !! "title"))
    (queue_of three_queued.1 three_queued.2)
  ∧ is_Some (fs three_queued.1 !! lock_file three_queued.2)
  ∧ (unload three_queued).2 = Ok ()
  ∧ fs (unload three_queued).1.1 !! lock_file three_queued.2 = None
  ∧ queue_of (unload three_queued).1.1 (unload three_queued).1.2 = [1].
Proof.
  assert (is_Some (fs three_queued.1 !! lock_file three_queued.2)) as Hheld
    by (vm_compute; eauto).
  destruct (unload_releases_lock three_queued.1 three_queued.2 three_queued_titled)
    as (Hfree & _ & Hqueue & Hok).
  split; [exact three_queued_titled|]. split; [exact Hheld|].
  split; [exact (Hok Hheld)|]. split; [exact Hfree|exact Hqueue].
Defined.


(** ** Further runs *)

Lemma start_lock_held_witness :
  is_Some (fs three_queued.1 !! lock_file three_queued.2)
  ∧ start three_queued = (three_queued, Raise LockHeld).
Proof.
  assert (is_Some (fs three_queued.1 !! lock_file three_queued.2)) as Hheld
    by (vm_compute; eauto).
  split; [exact Hheld|].
  exact (start_lock_held three_queued.1 three_queued.2 Hheld).
Defined.

Lemma start_failed_fetch_keeps_lock_witness :
  fs (fresh_proc ∅) !! lock_file (mal unreachable) = None
  ∧ (start (fresh_proc ∅, mal unreachable)).2 = Raise (APIFatal "no route to host")
  ∧ start (start (fresh_proc ∅, mal unreachable)).1
    = ((start (fresh_proc ∅, mal unreachable)).1, Raise LockHeld).
Proof.
  assert (fs (fresh_proc ∅) !! lock_file (mal unreachable) = None) as Hlock
    by (vm_compute; reflexivity).
  assert (fs (fresh_proc ∅) !! cache_file (mal unreachable) = None) as Hcache
    by (vm_compute; reflexivity).
  assert ((fetch_list (api (mal unreachable))).2 = ApiFail "no route to host")
    as Hfail by reflexivity.
  destruct (start_failed_fetch_keeps_lock (fresh_proc ∅) (mal unreachable)
              "no route to host" Hlock Hcache
              (proj1 (init_paths_distinct "mal" "anime" unreachable)) Hfail)
    as (Hfatal & _ & Hagain).
  split; [exact Hlock|]. split; [exact Hfatal|exact Hagain].
Defined.

Lemma start_loads_files_witness :
  fs (fresh_proc left_files) !! lock_file (mal quiet) = None
  ∧ ∃ s',
      start (fresh_proc left_files, mal quiet) = (s', Ok ("script", "anime"))
      ∧ showlist_view s'.1 s'.2 = Some {[ VInt 1 := <["action":=VStr "add"]> show_X ]}
      ∧ queue_view s'.1 s'.2 = [<["action":=VStr "add"]> show_X]
      ∧ calls s'.2 = [].
Proof.
  assert (fs (fresh_proc left_files) !! lock_file (mal quiet) = None) as Hlock
    by (vm_compute; reflexivity).
  split; [exact Hlock|].
  destruct (start_loads_files (fresh_proc left_files) (mal quiet)
              {[ VInt 1 := <["action":=VStr "add"]> show_X ]}
              [<["action":=VStr "add"]> show_X] Hlock)
    as (s' & Hrun & Hlist & Hqueue & Hcalls & _);
    [vm_compute; reflexivity..|].
  exists s'. split_and!; [exact Hrun|exact Hlist|exact Hqueue|exact Hcalls].
Defined.

Lemma mutations_are_saved_witness :
  queue_add 0 ready = ((queue_add 0 ready).1, Ok ())
  ∧ fs (queue_add 0 ready).1.1 !! queue_file (mal quiet)
    = Some (PickledQueue [<["action":=VStr "add"]> show_X])
  ∧ fs (queue_add 0 ready).1.1 !! cache_file (mal quiet)
    = Some (PickledList (Some {[ VInt 1 := <["action":=VStr "add"]> show_X ]})).
Proof.
  assert (queue_add 0 (ready.1, ready.2) = ((queue_add 0 ready).1, Ok ())) as Hadd
    by (vm_compute; reflexivity).
  destruct (mutations_are_saved 0 "title" VNone ready.1 ready.2 _
              (proj2 (proj2 (init_paths_distinct "mal" "anime" quiet)))
              (or_introl Hadd)) as [Hqueue Hcache].
  split; [exact Hadd|]. split; [exact Hqueue|exact Hcache].
Defined.

Lemma restart_restores_witness :
  queue_add 0 ready = ((queue_add 0 ready).1, Ok ())
  ∧ (start (fresh_proc (delete (lock_file (mal quiet)) (fs (queue_add 0 ready).1.1)),
            mal quiet)).2 = Ok ("script", "anime")
  ∧ queue_view
      (start (fresh_proc (delete (lock_file (mal quiet)) (fs (queue_add 0 ready).1.1)),
              mal quiet)).1.1
      (start (fresh_proc (delete (lock_file (mal quiet)) (fs (queue_add 0 ready).1.1)),
              mal quiet)).1.2
    = queue_view (queue_add 0 ready).1.1 (queue_add 0 ready).1.2.
Proof.
  assert (queue_add 0 (ready.1, ready.2) = ((queue_add 0 ready).1, Ok ())) as Hadd
    by (vm_compute; reflexivity).
  destruct (init_paths_distinct "mal" "anime" quiet) as (Hlc & Hlq & Hcq).
  destruct (restart_restores 0 "title" VNone ready.1 ready.2 _
              (fresh_proc (delete (lock_file (mal quiet)) (fs (queue_add 0 ready).1.1)))
              (mal quiet) Hlc Hlq Hcq (or_introl Hadd))
    as (Hok & _ & Hqueue & _); [vm_compute; eauto|reflexivity..|].
  split; [exact Hadd|]. split; [exact Hok|exact Hqueue].
Defined.

Lemma queue_add_twice_witness :
  queue_add 0 ready = ((queue_add 0 ready).1, Ok ())
  ∧ queue_add 0 (queue_add 0 ready).1 = ((queue_add 0 ready).1, Raise DuplicateShow).
Proof.
  assert (queue_add 0 (ready.1, ready.2) = ((queue_add 0 ready).1, Ok ())) as Hadd
    by (vm_compute; reflexivity).
  split; [exact Hadd|]. exact (queue_add_twice 0 ready.1 ready.2 _ Hadd).
Defined.

Lemma queue_add_failures_witness :
  deref (heap ready_untitled.1) 0 !! "title" = None
  ∧ ∃ s',
      queue_add 0 ready_untitled = (s', Raise (KeyError "title"))
      ∧ queue_of s'.1 s'.2 = [0]
      ∧ showlist s'.2 = Some {[ VInt 4 := 0 ]}.
Proof.
  assert (deref (heap ready_untitled.1) 0 !! "title" = None) as Htitle
    by (vm_compute; reflexivity).
  split; [exact Htitle|].
  destruct (queue_add_failures 0 ready_untitled.1 ready_untitled.2) as (_ & _ & Hlate).
  destruct (Hlate (VInt 4) ∅) as (s' & Hrun & Hqueue & Hlist & _);
    [vm_compute; reflexivity..|exact Htitle|].
  exists s'. split_and!; [exact Hrun|exact Hqueue|exact Hlist].
Defined.

Lemma queue_update_keeps_titles_witness :
  Forall (λ x, is_Some (deref (heap three_queued.1) x !! "title"))
    (queue_of three_queued.1 three_queued.2)
  ∧ Forall (λ x, is_Some (deref (heap (queue_update 0 "title" (VStr "Z")
                                         three_queued).1.1) x !! "title"))
      (queue_of (queue_update 0 "title" (VStr "Z") three_queued).1.1
         (queue_update 0 "title" (VStr "Z") three_queued).1.2).
Proof.
  split; [exact three_queued_titled|].
  exact (queue_update_keeps_titles 0 "title" (VStr "Z") three_queued.1 three_queued.2
           three_queued_titled).
Defined.

Lemma queue_add_keeps_titles_witness :
  queue_add 0 ready = ((queue_add 0 ready).1, Ok ())
  ∧ Forall (λ x, is_Some (deref (heap (queue_add 0 ready).1.1) x !! "title"))
      (queue_of (queue_add 0 ready).1.1 (queue_add 0 ready).1.2).
Proof.
  assert (queue_add 0 (ready.1, ready.2) = ((queue_add 0 ready).1, Ok ())) as Hadd
    by (vm_compute; reflexivity).
  assert (Forall (λ x, is_Some (deref (heap ready.1) x !! "title"))
            (queue_of ready.1 ready.2)) as Hnone by (vm_compute; constructor).
  split; [exact Hadd|].
  exact (queue_add_keeps_titles 0 ready.1 ready.2 _ Hnone Hadd).
Defined.

Lemma queue_update_keeps_single_update_witness :
  queue_update 0 "score" (VInt 5) listed
    = ((queue_update 0 "score" (VInt 5) listed).1, Ok ())
  ∧ ∀ ident,
      (length (update_items (heap (queue_update 0 "score" (VInt 5) listed).1.1) ident
                 (queue_of (queue_update 0 "score" (VInt 5) listed).1.1
                    (queue_update 0 "score" (VInt 5) listed).1.2)) ≤ 1)%nat.
Proof.
  assert (queue_update 0 "score" (VInt 5) (listed.1, listed.2)
    = ((queue_update 0 "score" (VInt 5) listed).1, Ok ())) as Hrun
    by (vm_compute; reflexivity).
  split; [exact Hrun|].
  apply (queue_update_keeps_single_update 0 "score" (VInt 5) listed.1 listed.2);
    [vm_compute; eauto|done|done|vm_compute; constructor| |exact Hrun].
  intros ident. vm_compute. lia.
Defined.

Lemma queue_add_keeps_single_add_witness :
  queue_add 0 ready = ((queue_add 0 ready).1, Ok ())
  ∧ ∀ ident,
      (length (add_items (heap (queue_add 0 ready).1.1) ident
                 (queue_of (queue_add 0 ready).1.1 (queue_add 0 ready).1.2)) ≤ 1)%nat.
Proof.
  assert (queue_add 0 (ready.1, ready.2) = ((queue_add 0 ready).1, Ok ())) as Hadd
    by (vm_compute; reflexivity).
  split; [exact Hadd|].
  apply (queue_add_keeps_single_add 0 ready.1 ready.2); [| |exact Hadd].
  - vm_compute. apply not_elem_of_nil.
  - intros ident. vm_compute. lia.
Defined.

Lemma process_queue_all_or_nothing_witness :
  (Failed ∉ (attempts (heap three_accepted.1) (api three_accepted.2)
               (queue_of three_accepted.1 three_accepted.2)).1)
  ∧ queue_of (process_queue three_accepted).1.1 (process_queue three_accepted).1.2 = []
  ∧ Forall (λ v, v = Failed)
      (attempts (heap three_refused.1) (api three_refused.2)
         (queue_of three_refused.1 three_refused.2)).1
  ∧ queue_of (process_queue three_refused).1.1 (process_queue three_refused).1.2
    = [0; 1; 2].
Proof.
  assert (Failed ∉ (attempts (heap three_accepted.1) (api three_accepted.2)
                      (queue_of three_accepted.1 three_accepted.2)).1) as Hnone.
  { vm_compute. intros Hin. repeat (apply elem_of_cons in Hin as [Hin|Hin]; [discriminate Hin|]).
    by apply elem_of_nil in Hin. }
  assert (Forall (λ v, v = Failed)
            (attempts (heap three_refused.1) (api three_refused.2)
               (queue_of three_refused.1 three_refused.2)).1) as Hall
    by (vm_compute; repeat constructor).
  destruct (process_queue_all_or_nothing three_accepted.1 three_accepted.2)
    as [Hsynced _]; [vm_compute; discriminate|exact three_queued_titled|].
  destruct (process_queue_all_or_nothing three_refused.1 three_refused.2)
    as [_ Hkept]; [vm_compute; discriminate|exact three_queued_titled|].
  destruct (Hsynced Hnone) as (_ & Hempty & _).
  destruct (Hkept Hall) as (_ & Hsame & _).
  split; [exact Hnone|]. split; [exact Hempty|]. split; [exact Hall|exact Hsame].
Defined.

Lemma process_queue_untitled_failure_witness :
  deref (heap untitled_queued.1) 0 !! "title" = None
  ∧ ∃ s',
      unload untitled_queued = (s', Raise (KeyError "title"))
      ∧ queue_of s'.1 s'.2 = []
      ∧ fs s'.1 = fs untitled_queued.1.
Proof.
  assert (deref (heap untitled_queued.1) 0 !! "title" = None) as Htitle
    by (vm_compute; reflexivity).
  split; [exact Htitle|].
  destruct (process_queue_untitled_failure untitled_queued.1 untitled_queued.2
              0 [] AddShow add_show "remote call failed")
    as (s' & _ & Hunload & Hqueue & _ & Hfs);
    [vm_compute; reflexivity..|exact Htitle|].
  exists s'. split_and!; [exact Hunload|exact Hqueue|exact Hfs].
Defined.

Lemma queue_clear_own_list_witness :
  queue_of after_first_run.1 after_first_run.2 ≠ []
  ∧ queue (queue_clear after_first_run).1.2 = Some []
  ∧ class_queue (queue_clear after_first_run).1.1 = [0]
  ∧ queue_clear (queue_clear after_first_run).1
    = ((queue_clear after_first_run).1, Raise EmptyQueue).
Proof.
  assert (queue_of after_first_run.1 after_first_run.2 ≠ []) as Hitems
    by (vm_compute; discriminate).
  destruct (queue_clear_own_list after_first_run.1 after_first_run.2 Hitems)
    as (Hagain & Hown & Hclass).
  split; [exact Hitems|]. split; [exact Hown|]. split; [|exact Hagain].
  etrans; [exact Hclass|]. vm_compute. reflexivity.
Defined.
